(** * YAML path finder: the key indexer, the three-tier resolver, the
    document update and the comparison renderer of
    [src/tools/yaml-path-finder/yaml-path-finder.vue], embedded as Rocq
    functions, with the properties of the specification proved about them. *)

From Stdlib Require Import String Ascii List Arith Bool Lia ZArith.
From Stdlib Require Import DecimalString DecimalNat.
Import ListNotations.
Open Scope list_scope.
Open Scope string_scope.

Set Implicit Arguments.

(** ** Strings

    A JavaScript string is modelled by a Rocq [string]: one character of the
    model stands for one code unit.  (A literal outside ASCII, such as the
    emoji of the sample document, is read as several characters; nothing
    below depends on their number.)  [String.prototype.split],
    [Array.prototype.join], [startsWith] and [endsWith] are written out for
    the separator and arguments the component uses. *)

Definition dq : string := String (ascii_of_nat 34) "".
Definition bs : string := String (ascii_of_nat 92) "".
Definition nl : string := String (ascii_of_nat 10) "".
Definition dot : ascii := ".".

(** [s.split('.')]: never empty, [''.split('.')] is [['']]. *)
Fixpoint split (s : string) : list string :=
  match s with
  | EmptyString => [""]
  | String c s' =>
      if Ascii.eqb c dot then "" :: split s'
      else match split s' with
           | [] => [String c ""]
           | seg :: segs => String c seg :: segs
           end
  end.

(** [parts.join(sep)]. *)
Fixpoint joinWith (sep : string) (parts : list string) : string :=
  match parts with
  | [] => ""
  | [p] => p
  | p :: rest => p ++ sep ++ joinWith sep rest
  end.

Definition join (parts : list string) : string := joinWith "." parts.

(** [s.startsWith(value)]. *)
Fixpoint startsWith (s value : string) {struct value} : bool :=
  match value, s with
  | EmptyString, _ => true
  | String _ _, EmptyString => false
  | String b value', String a s' => Ascii.eqb a b && startsWith s' value'
  end.

Fixpoint drop (n : nat) (s : string) : string :=
  match n, s with
  | O, _ => s
  | S _, EmptyString => EmptyString
  | S n', String _ s' => drop n' s'
  end.

(** [s.endsWith(value)]: the last [value.length] code units of [s] are
    compared with [value]; a [value] longer than [s] never matches. *)
Definition endsWith (s value : string) : bool :=
  let len := String.length s in
  let searchLength := String.length value in
  if (searchLength <=? len)%nat
  then String.eqb (drop (len - searchLength) s) value
  else false.

(** The property key of array index [i]: its decimal numeral. *)
Definition indexKey (i : nat) : string :=
  NilEmpty.string_of_uint (Nat.to_uint i).

(** The array index a property key denotes, when it is the canonical
    numeral of one. *)
Definition arrayIndex (key : string) : option nat :=
  match NilEmpty.uint_of_string key with
  | Some d =>
      let i := Nat.of_uint d in
      if String.eqb (indexKey i) key then Some i else None
  | None => None
  end.

Fixpoint noDot (s : string) : bool :=
  match s with
  | EmptyString => true
  | String c s' => negb (Ascii.eqb c dot) && noDot s'
  end.

(** [s] holds no occurrence of the character [c]. *)
Fixpoint lacks (c : ascii) (s : string) : bool :=
  match s with
  | EmptyString => true
  | String a s' => negb (Ascii.eqb a c) && lacks c s'
  end.

(** ** Document trees

    What [YAML.parse] hands back: null, booleans, numbers, strings, arrays
    and plain objects, as finite trees: the data model takes the document
    to be acyclic.  An object is the list of its own enumerable
    properties in the order [for ... in] visits them.  Numbers are kept
    abstract: the component only asks whether one is truthy and how
    [JSON.stringify] prints it. *)

#[warning="-register-all"]
Inductive value (num : Type) : Type :=
| VNull
| VBool (b : bool)
| VNum (n : num)
| VStr (s : string)
| VArr (elems : list (value num))
| VObj (props : list (string * value num)).

Arguments VNull {num}.
Arguments VBool {num} b.
Arguments VNum {num} n.
Arguments VStr {num} s.
Arguments VArr {num} elems.
Arguments VObj {num} props.

Definition error : Type := string.

(** A JavaScript completion: a value, or a thrown exception. *)
Inductive completion (A : Type) : Type :=
| Normal (a : A)
| Throw (e : error).

Arguments Normal {A} a.
Arguments Throw {A} e.

(** One change object of the [diff] package. *)
Record Change : Type := mkChange {
  value_ : string;
  added : bool;
  removed : bool
}.

(** The host: number primitives and the two imported library functions
    ([YAML.parse] of [yaml], [diffChars] of [diff]). *)
Class Host (num : Type) : Type := {
  num_truthy : num -> bool;
  num_toJSON : num -> string;
  YAML_parse : string -> completion (value num);
  diffChars : string -> string -> list Change
}.

Section Model.
Context {num : Type} {host : Host num}.

(** [typeof v === 'object']: arrays, plain objects and [null]. *)
Definition typeofObject (v : value num) : bool :=
  match v with
  | VNull | VArr _ | VObj _ => true
  | VBool _ | VNum _ | VStr _ => false
  end.

(** JavaScript truthiness. *)
Definition truthy (v : value num) : bool :=
  match v with
  | VNull => false
  | VBool b => b
  | VNum n => num_truthy n
  | VStr s => negb (String.eqb s "")
  | VArr _ | VObj _ => true
  end.

Fixpoint assoc (key : string) (props : list (string * value num))
  : option (value num) :=
  match props with
  | [] => None
  | (k, v) :: rest => if String.eqb k key then Some v else assoc key rest
  end.

(** The code units of a string, as the one-character strings indexing
    yields. *)
Fixpoint chars (s : string) : list (value num) :=
  match s with
  | EmptyString => []
  | String c s' => VStr (String c "") :: chars s'
  end.

(** [obj[key]] on the document's own data: a property of an object, an
    element of an array, a code unit of a string; [None] is [undefined].
    [length] and the members inherited from the built-in prototypes hold
    no document data and are left out. *)
Definition getProp (obj : value num) (key : string) : option (value num) :=
  match obj with
  | VObj props => assoc key props
  | VArr elems =>
      match arrayIndex key with
      | Some i => nth_error elems i
      | None => None
      end
  | VStr s =>
      match arrayIndex key with
      | Some i => nth_error (chars s) i
      | None => None
      end
  | VNull | VBool _ | VNum _ => None
  end.

(** underscore's [deepGet]: [undefined] as soon as the walk stands on
    [null] or [undefined], and for the empty path. *)
Fixpoint deepGetFrom (obj : value num) (path : list string)
  : option (value num) :=
  match path with
  | [] => Some obj
  | key :: rest =>
      match obj with
      | VNull => None
      | _ => match getProp obj key with
             | Some child => deepGetFrom child rest
             | None => None
             end
      end
  end.

Definition deepGet (obj : value num) (path : list string)
  : option (value num) :=
  match path with
  | [] => None
  | _ => deepGetFrom obj path
  end.

(** [propertyOf(obj)(path)]; [propertyOf(null)] is the function that
    returns [undefined]. *)
Definition propertyOf (obj : value num) (path : list string)
  : option (value num) :=
  match obj with
  | VNull => None
  | _ => deepGet obj path
  end.

(** *** [JSON.stringify(v, null, 2)] *)

Definition hexDigit (n : nat) : string :=
  String (nth n ["0"; "1"; "2"; "3"; "4"; "5"; "6"; "7"; "8"; "9";
                 "a"; "b"; "c"; "d"; "e"; "f"]%char "0"%char) "".

Definition quoteChar (c : ascii) : string :=
  let n := nat_of_ascii c in
  if (n =? 34)%nat then bs ++ dq
  else if (n =? 92)%nat then bs ++ bs
  else if (n =? 8)%nat then bs ++ "b"
  else if (n =? 9)%nat then bs ++ "t"
  else if (n =? 10)%nat then bs ++ "n"
  else if (n =? 12)%nat then bs ++ "f"
  else if (n =? 13)%nat then bs ++ "r"
  else if (n <? 32)%nat
  then bs ++ "u00" ++ hexDigit (n / 16) ++ hexDigit (n mod 16)
  else String c "".

Fixpoint quoteBody (s : string) : string :=
  match s with
  | EmptyString => ""
  | String c s' => quoteChar c ++ quoteBody s'
  end.

Definition quoteJSON (s : string) : string := dq ++ quoteBody s ++ dq.

Definition gap : string := "  ".

Fixpoint serialize (indent : string) (v : value num) : string :=
  match v with
  | VNull => "null"
  | VBool true => "true"
  | VBool false => "false"
  | VNum n => num_toJSON n
  | VStr s => quoteJSON s
  | VArr elems =>
      let stepback := indent in
      let indent := indent ++ gap in
      match elems with
      | [] => "[]"
      | _ =>
          "[" ++ nl ++ indent
          ++ joinWith ("," ++ nl ++ indent) (map (serialize indent) elems)
          ++ nl ++ stepback ++ "]"
      end
  | VObj props =>
      let stepback := indent in
      let indent := indent ++ gap in
      match props with
      | [] => "{}"
      | _ =>
          "{" ++ nl ++ indent
          ++ joinWith ("," ++ nl ++ indent)
               (map (fun p : string * value num =>
                       let (k, child) := p in
                       quoteJSON k ++ ": " ++ serialize indent child) props)
          ++ nl ++ stepback ++ "}"
      end
  end.

Definition JSON_stringify (v : value num) : string := serialize "" v.

(** ** The key indexer *)

(** What one iteration of the loop of [getDeepKeys] appends for the
    property [key], given the keys of the value under it. *)
Definition keysOf (key : string) (objectTyped : bool) (subkeys : list string)
  : list string :=
  key :: (if objectTyped
          then map (fun subkey => key ++ "." ++ subkey) subkeys
          else []).

(** [getDeepKeys(obj)].  [for (const key in obj)] visits the properties of
    an object, the indices of an array and of a string, and nothing for
    the other primitives. *)
Fixpoint getDeepKeys (obj : value num) : list string :=
  match obj with
  | VObj props =>
      (fix loop (ps : list (string * value num)) : list string :=
         match ps with
         | [] => []
         | (key, child) :: rest =>
             (keysOf key (typeofObject child) (getDeepKeys child)
              ++ loop rest)%list
         end) props
  | VArr elems =>
      (fix loop (i : nat) (es : list (value num)) : list string :=
         match es with
         | [] => []
         | child :: rest =>
             (keysOf (indexKey i) (typeofObject child) (getDeepKeys child)
              ++ loop (S i) rest)%list
         end) 0 elems
  | VStr s => map indexKey (seq 0 (String.length s))
  | VNull | VBool _ | VNum _ => []
  end.

(** The elements of an array (the code units of a string) with their
    index keys, counted from [i]. *)
Fixpoint indexed (i : nat) (elems : list (value num))
  : list (string * value num) :=
  match elems with
  | [] => []
  | child :: rest => (indexKey i, child) :: indexed (S i) rest
  end.

(** The keys [for (const key in obj)] visits, each with [obj[key]]. *)
Definition entries (obj : value num) : list (string * value num) :=
  match obj with
  | VObj props => props
  | VArr elems => indexed 0 elems
  | VStr s => indexed 0 (chars s)
  | VNull | VBool _ | VNum _ => []
  end.

(** The keys one entry contributes to the index. *)
Definition block (entry : string * value num) : list string :=
  keysOf (fst entry) (typeofObject (snd entry)) (getDeepKeys (snd entry)).

(** The number of segments of a dotted path, and the path one segment
    shorter. *)
Definition depth (path : string) : nat := List.length (split path).

Definition parent (path : string) : string := join (removelast (split path)).

(** Every key of depth above one comes after its parent path. *)
Definition ancestorsEarlier (index : list string) : Prop :=
  forall i path,
    nth_error index i = Some path -> 1 < depth path ->
    exists j, j < i /\ nth_error index j = Some (parent path).

(** The same, read along the list: [seen] holds the keys already passed. *)
Fixpoint ancestorsSeen (seen index : list string) : Prop :=
  match index with
  | [] => True
  | path :: rest =>
      (1 < depth path -> In (parent path) seen)
      /\ ancestorsSeen (path :: seen) rest
  end.

(** Scalars: null, booleans, numbers and strings. *)
Definition isScalar (v : value num) : bool :=
  match v with
  | VNull | VBool _ | VNum _ | VStr _ => true
  | VArr _ | VObj _ => false
  end.

(** ** Component state

    The refs of the component ([parsedYaml], [keys], [search],
    [comparison], [yamlInput]) and the console, where [console.error]
    leaves its diagnostics. *)

Record LogEntry : Type := mkLog {
  log_message : string;
  log_error : error
}.

Record State : Type := mkState {
  parsedYaml : value num;
  keys : list string;
  search : string;
  comparison : string;
  yamlInput : string;
  console : list LogEntry
}.

Definition set_parsedYaml (v : value num) (st : State) : State :=
  mkState v (keys st) (search st) (comparison st) (yamlInput st) (console st).

Definition set_keys (ks : list string) (st : State) : State :=
  mkState (parsedYaml st) ks (search st) (comparison st) (yamlInput st)
    (console st).

Definition set_search (q : string) (st : State) : State :=
  mkState (parsedYaml st) (keys st) q (comparison st) (yamlInput st)
    (console st).

Definition set_comparison (c : string) (st : State) : State :=
  mkState (parsedYaml st) (keys st) (search st) c (yamlInput st) (console st).

Definition set_yamlInput (text : string) (st : State) : State :=
  mkState (parsedYaml st) (keys st) (search st) (comparison st) text
    (console st).

Definition log (entry : LogEntry) (st : State) : State :=
  mkState (parsedYaml st) (keys st) (search st) (comparison st) (yamlInput st)
    (console st ++ [entry])%list.

(** Statements that read and write the refs and may throw: the state a
    statement leaves is kept when it throws, as an assignment made inside
    a [try] block is. *)
Definition M (A : Type) : Type := State -> completion A * State.

Definition ret {A : Type} (a : A) : M A := fun st => (Normal a, st).

Definition bind {A B : Type} (m : M A) (k : A -> M B) : M B :=
  fun st =>
    match m st with
    | (Normal a, st') => k a st'
    | (Throw e, st') => (Throw e, st')
    end.

Definition tryCatch {A : Type} (body : M A) (handler : error -> M A) : M A :=
  fun st =>
    match body st with
    | (Normal a, st') => (Normal a, st')
    | (Throw e, st') => handler e st'
    end.

Definition call {A : Type} (c : completion A) : M A := fun st => (c, st).

Definition read {A : Type} (ref : State -> A) : M A :=
  fun st => (Normal (ref st), st).

Definition assign (update : State -> State) : M unit :=
  fun st => (Normal tt, update st).

Definition console_error (message : string) (e : error) : M unit :=
  assign (log (mkLog message e)).

Notation "x <- m ;; k" := (bind m (fun x => k))
  (at level 61, m at next level, right associativity).
Notation "m ;; k" := (bind m (fun _ => k))
  (at level 61, right associativity).

(** ** [updateYaml] *)

Definition updateYaml : M unit :=
  input <- read yamlInput ;;
  if negb (String.eqb input "") then
    tryCatch
      (loadedYaml <- call (YAML_parse input) ;;
       assign (set_parsedYaml loadedYaml) ;;
       assign (set_keys (getDeepKeys loadedYaml)))
      (fun e => console_error "Failed to parse YAML:" e)
  else ret tt.

(** ** [renderComparison] *)

Definition matchHtml : string :=
  "<span class=" ++ dq ++ "text-success" ++ dq ++ ">Values match! 🎉</span>".

Definition renderChange (c : Change) : string :=
  if removed c
  then "<span class=" ++ dq ++ "text-error" ++ dq ++ ">" ++ value_ c
       ++ "</span>"
  else if added c
  then "<span class=" ++ dq ++ "text-success" ++ dq ++ ">" ++ value_ c
       ++ "</span>"
  else "<span>" ++ value_ c ++ "</span>".

Definition renderChanges (changes : list Change) : string :=
  joinWith "" (map renderChange changes).

Definition renderComparison (st : State) (foundValue : string) : string :=
  if String.eqb foundValue (comparison st) then matchHtml
  else renderChanges (diffChars foundValue (comparison st)).

(** ** The resolver *)

Inductive SearchResult : Type :=
| Exact (path : string) (text : string)
| SuffixMatch (count : nat) (found : list string)
| PrefixMatch (count : nat) (found : list string)
| NoMatch.

(** [exactMatch(parts)]: the path and the serialized value, or [null]. *)
Definition exactMatch (st : State) (parts : list string)
  : option (string * string) :=
  match propertyOf (parsedYaml st) parts with
  | Some foundValue =>
      if truthy foundValue
      then Some (join parts, JSON_stringify foundValue)
      else None
  | None => None
  end.

(** [prefixMatch(value)]: the count and the keys, or [null]. *)
Definition prefixMatch (st : State) (value : string)
  : option (nat * list string) :=
  let foundKeys := filter (fun key => startsWith key value) (keys st) in
  if (List.length foundKeys =? 0)%nat then None
  else Some (List.length foundKeys, foundKeys).

(** [suffixMatch(value)]. *)
Definition suffixMatch (st : State) (value : string)
  : option (nat * list string) :=
  let foundKeys := filter (fun key => endsWith key value) (keys st) in
  if (List.length foundKeys =? 0)%nat then None
  else Some (List.length foundKeys, foundKeys).

(** The computed [searchResult]; [None] is its [null]. *)
Definition searchResult (st : State) : option SearchResult :=
  if String.eqb (search st) "" then None
  else
    match exactMatch st (split (search st)) with
    | Some (path, text) => Some (Exact path text)
    | None =>
        match suffixMatch st (search st) with
        | Some (count, found) => Some (SuffixMatch count found)
        | None =>
            match prefixMatch st (search st) with
            | Some (count, found) => Some (PrefixMatch count found)
            | None => Some NoMatch
            end
        end
    end.

(** The resolver as a function of what it reads: the query, the tree and
    the key index. *)
Definition resolve (query : string) (tree : value num) (index : list string)
  : option SearchResult :=
  searchResult (mkState tree index query "" "" []).

(** The [v-html] binding of the comparison block, rendered inside the
    card of an exact result only: [renderComparison(searchResult.path)]. *)
Definition comparisonHtml (st : State) : option string :=
  match searchResult st with
  | Some (Exact path _) => Some (renderComparison st path)
  | _ => None
  end.

(** ** The start state *)

Definition defaultYaml : string :=
  "hello:" ++ nl ++
  "  from:" ++ nl ++
  "    your:" ++ nl ++
  "      favourite:" ++ nl ++
  "        yaml:" ++ nl ++
  "          tool: 👋" ++ nl.

(** The tree [defaultYaml] denotes: [underHello] is the mapping stored
    under its only top-level key. *)
Definition underHello : value num :=
  VObj [("from",
    VObj [("your",
      VObj [("favourite",
        VObj [("yaml",
          VObj [("tool", VStr "👋")])])])])].

Definition parsedDefaultYaml : value num := VObj [("hello", underHello)].

Definition initialState : State :=
  mkState parsedDefaultYaml (getDeepKeys parsedDefaultYaml) "" "" defaultYaml
    [].

(** ** Well-formed trees

    The own keys of a JavaScript object are pairwise distinct.
    [dotFreeKeys] singles out the documents none of whose keys contains
    the separator. *)

Fixpoint distinct (ks : list string) : bool :=
  match ks with
  | [] => true
  | k :: rest => negb (existsb (String.eqb k) rest) && distinct rest
  end.

Fixpoint everyObject (ok : list string -> bool) (v : value num) : bool :=
  match v with
  | VObj props =>
      ok (map fst props)
      && forallb (fun p : string * value num =>
                    let (_, child) := p in everyObject ok child) props
  | VArr elems => forallb (everyObject ok) elems
  | VNull | VBool _ | VNum _ | VStr _ => true
  end.

Definition wellFormed (v : value num) : bool := everyObject distinct v.

Definition dotFreeKeys (v : value num) : bool :=
  everyObject (forallb noDot) v.

(** A path that descends through mappings only. *)
Inductive mappingPath : value num -> list string -> Prop :=
| mappingPath_key : forall props key child,
    In (key, child) props -> mappingPath (VObj props) [key]
| mappingPath_step : forall props key child rest,
    In (key, child) props ->
    mappingPath child rest ->
    mappingPath (VObj props) (key :: rest).

(** ** The rest of the template *)

(** What the card of a suffix or prefix result shows next to a key:
    [JSON.stringify(propertyOf(parsedYaml)(key.split('.')), null, 2)],
    which is [undefined] ([None]) when the lookup finds nothing. *)
Definition keyValue (st : State) (key : string) : option string :=
  match propertyOf (parsedYaml st) (split key) with
  | Some found => Some (JSON_stringify found)
  | None => None
  end.

(** The rows of that card, one per key of the result, in its order; the
    card is rendered for suffix and prefix results only. *)
Definition matchCard (st : State) : option (list (string * option string)) :=
  match searchResult st with
  | Some (SuffixMatch _ found) | Some (PrefixMatch _ found) =>
      Some (map (fun key => (key, keyValue st key)) found)
  | _ => None
  end.





(** The paths [getDeepKeys] walks: from an entry to the entries of its
    value, as long as that value is object-typed. *)
Inductive descentPath : value num -> list string -> Prop :=
| descentPath_key : forall obj key child,
    In (key, child) (entries obj) -> descentPath obj [key]
| descentPath_step : forall obj key child rest,
    In (key, child) (entries obj) ->
    typeofObject child = true ->
    descentPath child rest ->
    descentPath obj (key :: rest).

End Model.

Arguments State num : clear implicits.
Arguments M num A : clear implicits.

(** ** A host to run the model on

    Integers for numbers, a reader that knows two texts, and the coarsest
    edit script. *)

Definition Z_toJSON (z : Z) : string :=
  NilEmpty.string_of_int (Z.to_int z).

Definition sampleParse (text : string) : completion (value Z) :=
  if String.eqb text "" then Normal VNull
  else if String.eqb text "answer: 42"
  then Normal (VObj [("answer", VNum 42%Z)])
  else Throw "YAMLParseError".

Definition sampleDiff (a b : string) : list Change :=
  [mkChange a false true; mkChange b true false].

(** Documents with a dotted key, an empty key, a dotted key beside the
    nested path of the same spelling, and a sequence. *)
Definition dottedKeyDoc : value Z := VObj [("a.b", VStr "x")].

Definition emptyKeyDoc : value Z := VObj [("", VStr "x")].

Definition shadowedDoc : value Z :=
  VObj [("a.b", VStr "x"); ("a", VObj [("b", VStr "y")])].

(** A document that holds a dotted key beside keys without a dot. *)
Definition labelledDoc : value Z :=
  VObj [("metadata",
         VObj [("labels", VObj [("app.kubernetes.io/name", VStr "web")]);
               ("name", VStr "web")]);
        ("replicas", VNum 3%Z)].

Definition listDoc : value Z := VObj [("list", VArr [VStr "x"; VStr "y"])].

#[export] Instance sampleHost : Host Z := {
  num_truthy := fun z => negb (Z.eqb z 0);
  num_toJSON := Z_toJSON;
  YAML_parse := sampleParse;
  diffChars := sampleDiff
}.

(** A second host, whose reader knows two texts of the null document. *)
Definition nullParse (text : string) : completion (value Z) :=
  if String.eqb text "~" then Normal VNull
  else if String.eqb text "# nothing here" then Normal VNull
  else Throw "YAMLParseError".

Definition nullHost : Host Z := {|
  num_truthy := fun z => negb (Z.eqb z 0);
  num_toJSON := Z_toJSON;
  YAML_parse := nullParse;
  diffChars := sampleDiff
|}.

Unset Implicit Arguments.

(** * Properties *)

(** ** Strings *)

Lemma append_nil_r (s : string) : s ++ "" = s.
Proof. induction s as [|c s IH]; simpl; congruence. Qed.

Lemma append_assoc (a b c : string) : (a ++ b) ++ c = a ++ b ++ c.
Proof. induction a as [|x a IH]; simpl; congruence. Qed.

Lemma append_length (a b : string) :
  String.length (a ++ b) = String.length a + String.length b.
Proof. induction a as [|x a IH]; simpl; congruence. Qed.

Lemma append_inv_head (a b c : string) : a ++ b = a ++ c -> b = c.
Proof.
  induction a as [|x a IH]; simpl; intros H; [assumption|].
  injection H; auto.
Qed.

Lemma startsWith_spec (s v : string) :
  startsWith s v = true <-> exists t, s = v ++ t.
Proof.
  revert s; induction v as [|b v IH]; intros s; simpl.
  - split; [intros _; exists s; reflexivity | reflexivity].
  - destruct s as [|a s].
    + split; [discriminate | intros [t Ht]; discriminate].
    + rewrite andb_true_iff, Ascii.eqb_eq, IH. split.
      * intros [-> [t ->]]; exists t; reflexivity.
      * intros [t Ht]; injection Ht as -> ->.
        split; [reflexivity | exists t; reflexivity].
Qed.

Lemma drop_append (p v : string) : drop (String.length p) (p ++ v) = v.
Proof. induction p as [|c p IH]; simpl; auto. Qed.

Lemma drop_split (n : nat) (s : string) :
  n <= String.length s -> exists p, s = p ++ drop n s /\ String.length p = n.
Proof.
  revert s; induction n as [|n IH]; intros s Hn.
  - exists ""; split; reflexivity.
  - destruct s as [|c s]; simpl in Hn; [lia|].
    destruct (IH s) as [p [Hp Hl]]; [lia|].
    exists (String c p); simpl; split; congruence.
Qed.

Lemma endsWith_spec (s v : string) :
  endsWith s v = true <-> exists p, s = p ++ v.
Proof.
  unfold endsWith. split.
  - destruct (Nat.leb_spec (String.length v) (String.length s)) as [Hle|Hlt];
      [|discriminate].
    intros H; apply String.eqb_eq in H.
    destruct (drop_split (String.length s - String.length v) s) as [p [Hp _]];
      [lia|].
    exists p. rewrite H in Hp. exact Hp.
  - intros [p ->]. rewrite append_length.
    replace (String.length v <=? String.length p + String.length v)%nat
      with true by (symmetry; apply Nat.leb_le; lia).
    replace (String.length p + String.length v - String.length v)
      with (String.length p) by lia.
    rewrite drop_append. apply String.eqb_refl.
Qed.

Lemma endsWith_refl (s : string) : endsWith s s = true.
Proof. apply endsWith_spec. exists "". reflexivity. Qed.

Lemma split_not_nil (s : string) : split s <> [].
Proof.
  induction s as [|c s IH]; simpl; [discriminate|].
  destruct (Ascii.eqb c dot); [discriminate|].
  destruct (split s); discriminate.
Qed.

Lemma join_cons (p : string) (rest : list string) :
  rest <> [] -> join (p :: rest) = p ++ "." ++ join rest.
Proof. destruct rest; [congruence | reflexivity]. Qed.

(** [parts.join('.')] undoes [split('.')]: the path of an exact result is
    the query itself. *)
Lemma join_split (s : string) : join (split s) = s.
Proof.
  induction s as [|c s IH]; [reflexivity|].
  simpl. destruct (Ascii.eqb_spec c dot) as [->|Hc].
  - rewrite join_cons by apply split_not_nil. simpl. rewrite IH. reflexivity.
  - pose proof (split_not_nil s) as Hne.
    destruct (split s) as [|seg segs]; [congruence|].
    destruct segs as [|seg' segs].
    + unfold join in *. simpl in *. congruence.
    + rewrite join_cons in IH by discriminate.
      rewrite join_cons by discriminate. simpl. rewrite <- IH. reflexivity.
Qed.

Lemma split_noDot (k : string) : noDot k = true -> split k = [k].
Proof.
  induction k as [|c k IH]; [reflexivity|]. simpl.
  rewrite andb_true_iff, negb_true_iff. intros [Hc Hk].
  rewrite Hc, (IH Hk). reflexivity.
Qed.

Lemma split_append_dot (k s : string) :
  noDot k = true -> split (k ++ "." ++ s) = k :: split s.
Proof.
  induction k as [|c k IH]; [reflexivity|]. simpl.
  rewrite andb_true_iff, negb_true_iff. intros [Hc Hk].
  rewrite Hc. simpl in IH. rewrite (IH Hk). reflexivity.
Qed.

(** [split('.')] undoes [join('.')] on segments that hold no dot. *)
Lemma split_join (segments : list string) :
  segments <> [] -> forallb noDot segments = true ->
  split (join segments) = segments.
Proof.
  induction segments as [|k rest IH]; intros Hne Hdot; [congruence|].
  simpl in Hdot. apply andb_true_iff in Hdot. destruct Hdot as [Hk Hrest].
  destruct rest as [|k' rest'].
  - apply split_noDot. assumption.
  - rewrite join_cons by discriminate.
    rewrite split_append_dot by assumption.
    rewrite IH; [reflexivity | discriminate | assumption].
Qed.

Lemma noDot_not_append_dot (k k' s : string) :
  noDot k = true -> k <> k' ++ "." ++ s.
Proof.
  revert k; induction k' as [|c k' IH]; intros k Hk Heq; subst k; simpl in Hk.
  - discriminate.
  - apply andb_true_iff in Hk. destruct Hk as [_ Hk].
    exact (IH _ Hk eq_refl).
Qed.

Section ComponentFacts.
Context {num : Type} {host : Host num}.

(** ** The resolver *)

Lemma exactMatch_set_keys (st : State num) (index parts : list string) :
  exactMatch (set_keys index st) parts = exactMatch st parts.
Proof. reflexivity. Qed.

Lemma filter_found (f : string -> bool) (l : list string) :
  (if (List.length (filter f l) =? 0)%nat then None
   else Some (List.length (filter f l), filter f l))
  = match filter f l with
    | [] => None
    | _ :: _ => Some (List.length (filter f l), filter f l)
    end.
Proof. destruct (filter f l); reflexivity. Qed.

Lemma suffixMatch_some (st : State num) (q : string) (count : nat)
      (found : list string) :
  suffixMatch st q = Some (count, found) ->
  count = List.length found /\ 1 <= count
  /\ found = filter (fun key => endsWith key q) (keys st).
Proof.
  unfold suffixMatch. rewrite filter_found.
  destruct (filter (fun key => endsWith key q) (keys st)) as [|k ks] eqn:E;
    [discriminate|].
  intros H; injection H as <- <-. simpl. repeat split. lia.
Qed.

Lemma prefixMatch_some (st : State num) (q : string) (count : nat)
      (found : list string) :
  prefixMatch st q = Some (count, found) ->
  count = List.length found /\ 1 <= count
  /\ found = filter (fun key => startsWith key q) (keys st).
Proof.
  unfold prefixMatch. rewrite filter_found.
  destruct (filter (fun key => startsWith key q) (keys st)) as [|k ks] eqn:E;
    [discriminate|].
  intros H; injection H as <- <-. simpl. repeat split. lia.
Qed.

Ltac tiers st :=
  unfold searchResult;
  destruct (String.eqb_spec (search st) "") as [?|?]; [congruence|];
  destruct (exactMatch st (split (search st))) as [[? ?]|];
  destruct (suffixMatch st (search st)) as [[? ?]|];
  destruct (prefixMatch st (search st)) as [[? ?]|].

(** C2: for a non-empty query the tiers are tried in strict order.  A hit
    of the exact tier is the result whatever the key index holds, so the
    suffix and prefix tiers have no say; a suffix result means the exact
    tier found nothing, a prefix result that the exact and suffix tiers
    found nothing, and NoMatch is returned exactly when all three found
    nothing. *)
Theorem tier_priority (st : State num) (Hquery : search st <> "") :
  (forall path text,
      exactMatch st (split (search st)) = Some (path, text) ->
      forall index,
        searchResult (set_keys index st) = Some (Exact path text))
  /\ (forall count found,
         searchResult st = Some (SuffixMatch count found) ->
         exactMatch st (split (search st)) = None
         /\ suffixMatch st (search st) = Some (count, found))
  /\ (forall count found,
         searchResult st = Some (PrefixMatch count found) ->
         exactMatch st (split (search st)) = None
         /\ suffixMatch st (search st) = None
         /\ prefixMatch st (search st) = Some (count, found))
  /\ (searchResult st = Some NoMatch <->
      exactMatch st (split (search st)) = None
      /\ suffixMatch st (search st) = None
      /\ prefixMatch st (search st) = None)
  /\ (exactMatch st (split (search st)) = None ->
      forall count found,
        suffixMatch st (search st) = Some (count, found) ->
        searchResult st = Some (SuffixMatch count found))
  /\ (exactMatch st (split (search st)) = None ->
      suffixMatch st (search st) = None ->
      forall count found,
        prefixMatch st (search st) = Some (count, found) ->
        searchResult st = Some (PrefixMatch count found)).
Proof.
  split; [|split; [|split; [|split; [|split]]]].
  - intros path text Hexact index. unfold searchResult.
    rewrite exactMatch_set_keys. simpl search.
    destruct (String.eqb_spec (search st) "") as [?|_]; [congruence|].
    rewrite Hexact. reflexivity.
  - intros count found. tiers st; intros H; try discriminate;
      injection H as -> ->; split; reflexivity.
  - intros count found. tiers st; intros H; try discriminate;
      injection H as -> ->; repeat split; reflexivity.
  - tiers st; split; try discriminate; try tauto;
      intros [? [? ?]]; discriminate.
  - intros Hexact count found Hsuffix. unfold searchResult.
    destruct (String.eqb_spec (search st) "") as [?|_]; [congruence|].
    rewrite Hexact, Hsuffix. reflexivity.
  - intros Hexact Hsuffix count found Hprefix. unfold searchResult.
    destruct (String.eqb_spec (search st) "") as [?|_]; [congruence|].
    rewrite Hexact, Hsuffix, Hprefix. reflexivity.
Qed.

(** C10: a SuffixMatch (a PrefixMatch) result carries the number of its
    keys, at least one, and its keys are the keys of the index that end
    with (start with) the query, in index order. *)
Theorem match_result_shape (st : State num) (count : nat)
        (found : list string) :
  (searchResult st = Some (SuffixMatch count found) ->
   count = List.length found /\ 1 <= count
   /\ found = filter (fun key => endsWith key (search st)) (keys st)
   /\ forall key, In key found <->
                  In key (keys st) /\ exists p, key = p ++ search st)
  /\ (searchResult st = Some (PrefixMatch count found) ->
      count = List.length found /\ 1 <= count
      /\ found = filter (fun key => startsWith key (search st)) (keys st)
      /\ forall key, In key found <->
                     In key (keys st) /\ exists t, key = search st ++ t).
Proof.
  split; intros H.
  - assert (Hs : suffixMatch st (search st) = Some (count, found)).
    { revert H. unfold searchResult.
      destruct (String.eqb (search st) ""); [discriminate|].
      destruct (exactMatch st (split (search st))) as [[? ?]|]; [discriminate|].
      destruct (suffixMatch st (search st)) as [[? ?]|].
      - intros H; injection H as -> ->. reflexivity.
      - destruct (prefixMatch st (search st)) as [[? ?]|]; discriminate. }
    destruct (suffixMatch_some _ _ _ _ Hs) as [Hc [Hpos Hf]].
    split; [exact Hc|]. split; [exact Hpos|]. split; [exact Hf|].
    intros key. rewrite Hf at 1. rewrite filter_In, endsWith_spec.
    reflexivity.
  - assert (Hp : prefixMatch st (search st) = Some (count, found)).
    { revert H. unfold searchResult.
      destruct (String.eqb (search st) ""); [discriminate|].
      destruct (exactMatch st (split (search st))) as [[? ?]|]; [discriminate|].
      destruct (suffixMatch st (search st)) as [[? ?]|]; [discriminate|].
      destruct (prefixMatch st (search st)) as [[? ?]|]; [|discriminate].
      intros H; injection H as -> ->. reflexivity. }
    destruct (prefixMatch_some _ _ _ _ Hp) as [Hc [Hpos Hf]].
    split; [exact Hc|]. split; [exact Hpos|]. split; [exact Hf|].
    intros key. rewrite Hf at 1. rewrite filter_In, startsWith_spec.
    reflexivity.
Qed.

(** ** [updateYaml] *)

(** C7: when [YAML.parse] throws on the input text, [updateYaml] completes
    normally, logs one diagnostic with the error, and leaves the document
    tree, the key index and every other ref as they were.  ([YAML.parse]
    does not throw on the empty text: it returns [null].) *)
Theorem updateYaml_parse_failure
        (Hempty : forall e, YAML_parse "" <> Throw e)
        (st : State num) (e : error)
        (Hfail : YAML_parse (yamlInput st) = Throw e) :
  exists st',
    updateYaml st = (Normal tt, st')
    /\ parsedYaml st' = parsedYaml st
    /\ keys st' = keys st
    /\ search st' = search st
    /\ comparison st' = comparison st
    /\ yamlInput st' = yamlInput st
    /\ console st' = (console st ++ [mkLog "Failed to parse YAML:" e])%list.
Proof.
  exists (log (mkLog "Failed to parse YAML:" e) st).
  repeat split.
  unfold updateYaml, bind, read, tryCatch, call.
  destruct (String.eqb_spec (yamlInput st) "") as [Hnil|Hnonnil].
  - rewrite Hnil in Hfail. destruct (Hempty e Hfail).
  - simpl. rewrite Hfail. reflexivity.
Qed.

(** C9: on an empty input text [updateYaml] does nothing at all: the
    state, console included, is returned as it was, whatever [YAML.parse]
    would have done with the text. *)
Theorem updateYaml_empty_input (st : State num) (Hnil : yamlInput st = "") :
  updateYaml st = (Normal tt, st).
Proof.
  unfold updateYaml, bind, read. rewrite Hnil. reflexivity.
Qed.

(** After a successful parse the tree and the index are replaced
    together. *)
Lemma updateYaml_parse_success (st : State num) (loaded : value num) :
  yamlInput st <> "" ->
  YAML_parse (yamlInput st) = Normal loaded ->
  updateYaml st
  = (Normal tt, set_keys (getDeepKeys loaded) (set_parsedYaml loaded st)).
Proof.
  intros Hnonnil Hok.
  unfold updateYaml, bind, read, tryCatch, call.
  destruct (String.eqb_spec (yamlInput st) "") as [?|_]; [congruence|].
  simpl. rewrite Hok. reflexivity.
Qed.

(** On the finite trees of this model [updateYaml] never throws and
    keeps the key index in step with the tree.  (A parse result in which
    an alias refers to its own ancestor is cyclic and has no finite
    tree; on it the recursion of [getDeepKeys] overflows, inside the
    [try] and after the tree was assigned, so the index is left behind
    the tree.) *)
Lemma updateYaml_keeps_index (st st' : State num) (r : completion unit) :
  keys st = getDeepKeys (parsedYaml st) ->
  updateYaml st = (r, st') ->
  r = Normal tt /\ keys st' = getDeepKeys (parsedYaml st').
Proof.
  intros Hinv. unfold updateYaml, bind, read, tryCatch, call.
  destruct (String.eqb (yamlInput st) ""); simpl.
  - intros H; injection H as <- <-. auto.
  - destruct (YAML_parse (yamlInput st)) as [loaded|e]; simpl;
      intros H; injection H as <- <-; auto.
Qed.

(** ** [renderComparison] *)

Lemma renderChanges_unchanged (changes : list Change) :
  (forall c, In c changes -> added c = false /\ removed c = false) ->
  renderChanges changes <> matchHtml.
Proof.
  destruct changes as [|c rest]; intros Hall.
  - discriminate.
  - destruct (Hall c (or_introl eq_refl)) as [Ha Hr].
    unfold renderChanges. simpl map. unfold renderChange at 1.
    rewrite Ha, Hr. destruct (map renderChange rest); simpl; discriminate.
Qed.

(** C8: comparing a string with itself yields the match message, for the
    empty string too, and that message is no rendering of a list of
    changes that is empty or holds unchanged segments only. *)
Theorem renderComparison_same (st : State num) (a : string) :
  renderComparison (set_comparison a st) a = matchHtml
  /\ renderComparison (set_comparison "" st) "" = matchHtml
  /\ (forall changes,
         (forall c, In c changes -> added c = false /\ removed c = false) ->
         renderChanges changes <> matchHtml).
Proof.
  split; [|split].
  - unfold renderComparison. simpl comparison.
    rewrite String.eqb_refl. reflexivity.
  - reflexivity.
  - apply renderChanges_unchanged.
Qed.

Lemma exact_path_is_query (st : State num) (path text : string) :
  searchResult st = Some (Exact path text) -> path = search st.
Proof.
  unfold searchResult.
  destruct (String.eqb (search st) ""); [discriminate|].
  unfold exactMatch.
  destruct (propertyOf (parsedYaml st) (split (search st))) as [v|].
  - destruct (truthy v).
    + intros H; injection H as <- _. apply join_split.
    + destruct (suffixMatch st (search st)) as [[? ?]|]; [discriminate|].
      destruct (prefixMatch st (search st)) as [[? ?]|]; discriminate.
  - destruct (suffixMatch st (search st)) as [[? ?]|]; [discriminate|].
    destruct (prefixMatch st (search st)) as [[? ?]|]; discriminate.
Qed.

(** C3 (amended): on an exact result the comparison block renders
    [renderComparison] of the found path, which is the query: the match
    message when the comparison string equals the path, and otherwise the
    changes [diffChars] reports between the path, as first argument, and
    the comparison string, as second. *)
Theorem comparison_diffs_path (st : State num) (path text : string)
        (Hexact : searchResult st = Some (Exact path text)) :
  path = search st
  /\ comparisonHtml st = Some (renderComparison st path)
  /\ (path = comparison st -> comparisonHtml st = Some matchHtml)
  /\ (path <> comparison st ->
      comparisonHtml st
      = Some (renderChanges (diffChars path (comparison st)))).
Proof.
  split; [exact (exact_path_is_query _ _ _ Hexact)|].
  unfold comparisonHtml. rewrite Hexact. unfold renderComparison.
  split; [reflexivity|]. split; intros Hc.
  - rewrite Hc, String.eqb_refl. reflexivity.
  - destruct (String.eqb_spec path (comparison st));
      [contradiction | reflexivity].
Qed.

End ComponentFacts.

(** ** Array index keys *)

Lemma arrayIndex_indexKey (i : nat) : arrayIndex (indexKey i) = Some i.
Proof.
  unfold arrayIndex, indexKey. rewrite NilEmpty.usu.
  rewrite DecimalNat.Unsigned.of_to. rewrite String.eqb_refl. reflexivity.
Qed.

Lemma indexKey_inj (i j : nat) : indexKey i = indexKey j -> i = j.
Proof.
  intros H. pose proof (arrayIndex_indexKey i) as Hi.
  rewrite H, arrayIndex_indexKey in Hi. congruence.
Qed.

Lemma noDot_numeral (d : Decimal.uint) :
  noDot (NilEmpty.string_of_uint d) = true.
Proof. induction d; simpl; auto. Qed.

Lemma noDot_indexKey (i : nat) : noDot (indexKey i) = true.
Proof. apply noDot_numeral. Qed.

(** ** Induction on document trees *)

Section ValueInduction.
Variable num : Type.
Variable P : value num -> Prop.
Hypothesis HNull : P VNull.
Hypothesis HBool : forall b, P (VBool b).
Hypothesis HNum : forall n, P (VNum n).
Hypothesis HStr : forall s, P (VStr s).
Hypothesis HArr : forall elems, Forall P elems -> P (VArr elems).
Hypothesis HObj :
  forall props, Forall (fun p => P (snd p)) props -> P (VObj props).

Fixpoint value_nested_ind (v : value num) : P v :=
  match v with
  | VNull => HNull
  | VBool b => HBool b
  | VNum n => HNum n
  | VStr s => HStr s
  | VArr elems =>
      HArr _ ((fix all (es : list (value num)) : Forall P es :=
               match es with
               | [] => Forall_nil _
               | e :: rest => Forall_cons e (value_nested_ind e) (all rest)
               end) elems)
  | VObj props =>
      HObj _ ((fix all (ps : list (string * value num))
               : Forall (fun p => P (snd p)) ps :=
               match ps with
               | [] => Forall_nil _
               | p :: rest =>
                   Forall_cons p (value_nested_ind (snd p)) (all rest)
               end) props)
  end.

End ValueInduction.

(** ** The entries [for ... in] visits *)

Section IndexFacts.
Context {num : Type}.

Lemma chars_length (s : string) :
  List.length (chars (num:=num) s) = String.length s.
Proof. induction s as [|c s IH]; simpl; congruence. Qed.

Lemma indexed_chars_keys (i : nat) (s : string) :
  flat_map (block (num:=num)) (indexed i (chars s))
  = map indexKey (seq i (String.length s)).
Proof.
  revert i; induction s as [|c s IH]; intros i; [reflexivity|].
  simpl. rewrite IH. reflexivity.
Qed.

(** [getDeepKeys] is the loop over the entries. *)
Lemma getDeepKeys_entries (obj : value num) :
  getDeepKeys obj = flat_map block (entries obj).
Proof.
  destruct obj as [| | | s | elems | props]; try reflexivity.
  - simpl. symmetry. apply indexed_chars_keys.
  - simpl. generalize 0.
    induction elems as [|child rest IH]; intros i; [reflexivity|].
    simpl. rewrite IH. reflexivity.
  - simpl. induction props as [|[key child] rest IH]; [reflexivity|].
    simpl. rewrite IH. reflexivity.
Qed.

Lemma in_indexed (i : nat) (elems : list (value num)) (k : string)
      (c : value num) :
  In (k, c) (indexed i elems) <->
  exists j, k = indexKey (i + j) /\ nth_error elems j = Some c.
Proof.
  revert i; induction elems as [|e rest IH]; intros i; simpl.
  - split; [tauto | intros [[|j] [_ H]]; discriminate].
  - rewrite IH. split.
    + intros [H | [j [Hk Hn]]].
      * injection H as <- <-. exists 0. rewrite Nat.add_0_r. auto.
      * exists (S j). rewrite Nat.add_succ_r. auto.
    + intros [[|j] [Hk Hn]]; simpl in Hn.
      * left. rewrite Nat.add_0_r in Hk. congruence.
      * right. exists j. rewrite Nat.add_succ_r in Hk. auto.
Qed.

Lemma indexed_keys_above (i : nat) (elems : list (value num)) (k : string) :
  In k (map fst (indexed i elems)) -> exists j, k = indexKey (i + j).
Proof.
  intros H. apply in_map_iff in H. destruct H as [[k' c] [Hk Hin]].
  simpl in Hk; subst k'. apply in_indexed in Hin.
  destruct Hin as [j [Hj _]]. exists j; exact Hj.
Qed.

Lemma NoDup_indexed (i : nat) (elems : list (value num)) :
  NoDup (map fst (indexed i elems)).
Proof.
  revert i; induction elems as [|e rest IH]; intros i; simpl; constructor;
    [|apply IH].
  intros H. apply indexed_keys_above in H. destruct H as [j Hj].
  apply indexKey_inj in Hj. lia.
Qed.

Lemma distinct_NoDup (ks : list string) : distinct ks = true -> NoDup ks.
Proof.
  induction ks as [|k rest IH]; simpl; [constructor|].
  rewrite andb_true_iff, negb_true_iff. intros [Hk Hrest].
  constructor; [|auto].
  intros Hin. assert (existsb (String.eqb k) rest = true) as E.
  { apply existsb_exists. exists k. split; [assumption|apply String.eqb_refl]. }
  congruence.
Qed.

Lemma assoc_in (props : list (string * value num)) (k : string)
      (c : value num) :
  NoDup (map fst props) -> In (k, c) props -> assoc k props = Some c.
Proof.
  induction props as [|[k' c'] rest IH]; simpl; [tauto|].
  intros Hnd [Heq | Hin].
  - injection Heq as -> ->. rewrite String.eqb_refl. reflexivity.
  - inversion Hnd as [|? ? Hnotin Hnd']; subst.
    destruct (String.eqb_spec k' k) as [->|_].
    + exfalso. apply Hnotin. apply in_map_iff. exists (k, c). auto.
    + auto.
Qed.

Lemma getProp_entries (obj : value num) (k : string) (c : value num) :
  NoDup (map fst (entries obj)) -> In (k, c) (entries obj) ->
  getProp obj k = Some c.
Proof.
  destruct obj as [| | | s | elems | props]; simpl; try tauto.
  - intros _ H. apply in_indexed in H. destruct H as [j [-> Hj]].
    rewrite arrayIndex_indexKey. exact Hj.
  - intros _ H. apply in_indexed in H. destruct H as [j [-> Hj]].
    rewrite arrayIndex_indexKey. exact Hj.
  - apply assoc_in.
Qed.

Lemma in_chars_scalar (s : string) (i : nat) (k : string) (c : value num) :
  In (k, c) (indexed i (chars s)) -> typeofObject c = false.
Proof.
  revert i; induction s as [|a s IH]; intros i; simpl; [tauto|].
  intros [H | H]; [injection H as _ <-; reflexivity | eauto].
Qed.

Lemma wellFormed_entries (obj : value num) :
  wellFormed obj = true ->
  NoDup (map fst (entries obj))
  /\ forall k c, In (k, c) (entries obj) -> typeofObject c = true ->
                 wellFormed c = true.
Proof.
  destruct obj as [| | | s | elems | props]; simpl;
    try (intros _; split; [constructor | tauto]).
  - intros _. split; [apply NoDup_indexed|].
    intros k c Hin Hobj. apply in_chars_scalar in Hin. congruence.
  - unfold wellFormed. simpl. rewrite forallb_forall. intros Hall.
    split; [apply NoDup_indexed|].
    intros k c Hin _. apply in_indexed in Hin. destruct Hin as [j [_ Hj]].
    apply Hall. eapply nth_error_In; eassumption.
  - unfold wellFormed. simpl. rewrite andb_true_iff, forallb_forall.
    intros [Hd Hall]. split; [apply distinct_NoDup; assumption|].
    intros k c Hin _. exact (Hall _ Hin).
Qed.

Lemma dotFreeKeys_entries (obj : value num) :
  dotFreeKeys obj = true ->
  forall k c, In (k, c) (entries obj) ->
              noDot k = true
              /\ (typeofObject c = true -> dotFreeKeys c = true).
Proof.
  destruct obj as [| | | s | elems | props]; simpl; try tauto.
  - intros _ k c Hin. split.
    + apply in_indexed in Hin. destruct Hin as [j [-> _]].
      apply noDot_indexKey.
    + intros Hobj. apply in_chars_scalar in Hin. congruence.
  - unfold dotFreeKeys. simpl. rewrite forallb_forall. intros Hall k c Hin.
    apply in_indexed in Hin. destruct Hin as [j [-> Hj]].
    split; [apply noDot_indexKey|].
    intros _. apply Hall. eapply nth_error_In; eassumption.
  - unfold dotFreeKeys. simpl. rewrite andb_true_iff, !forallb_forall.
    intros [Hk Hall] k c Hin. split.
    + apply Hk. apply in_map_iff. exists (k, c). auto.
    + intros _. exact (Hall _ Hin).
Qed.

(** Induction that follows the recursive calls of [getDeepKeys]. *)
Lemma descent_ind (P : value num -> Prop) :
  (forall obj,
      (forall k c, In (k, c) (entries obj) -> typeofObject c = true -> P c) ->
      P obj) ->
  forall obj, P obj.
Proof.
  intros Hstep. induction obj using value_nested_ind; apply Hstep; simpl;
    try tauto.
  - intros k c Hin Hobj. apply in_chars_scalar in Hin. congruence.
  - intros k c Hin _. apply in_indexed in Hin. destruct Hin as [j [_ Hj]].
    rewrite Forall_forall in H. apply H. eapply nth_error_In; eassumption.
  - intros k c Hin _. rewrite Forall_forall in H. exact (H _ Hin).
Qed.

End IndexFacts.

(** ** The key index *)

Section IndexTheorems.
Context {num : Type}.

Lemma in_block (k : string) (c : value num) (path : string) :
  In path (block (k, c)) <->
  path = k
  \/ (typeofObject c = true
      /\ exists sub, In sub (getDeepKeys c) /\ path = k ++ "." ++ sub).
Proof.
  unfold block, keysOf. simpl. destruct (typeofObject c).
  - rewrite in_map_iff. split.
    + intros [H | [sub [H Hin]]]; [left; congruence|].
      right. split; [reflexivity|]. exists sub. split; congruence.
    + intros [H | [_ [sub [Hin H]]]]; [left; congruence|].
      right. exists sub. split; congruence.
  - simpl. split.
    + intros [H | []]. left; congruence.
    + intros [H | [H _]]; [left; congruence | discriminate].
Qed.

Lemma in_getDeepKeys (obj : value num) (path : string) :
  In path (getDeepKeys obj) <->
  exists k c, In (k, c) (entries obj) /\ In path (block (k, c)).
Proof.
  rewrite getDeepKeys_entries, in_flat_map. split.
  - intros [[k c] H]. exists k, c. exact H.
  - intros [k [c H]]. exists (k, c). exact H.
Qed.

Lemma block_head (k : string) (c : value num) (path : string) :
  noDot k = true -> In path (block (k, c)) -> hd "" (split path) = k.
Proof.
  intros Hk Hin. apply in_block in Hin.
  destruct Hin as [-> | [_ [sub [_ ->]]]].
  - rewrite split_noDot by assumption. reflexivity.
  - rewrite split_append_dot by assumption. reflexivity.
Qed.

Lemma NoDup_map_prefix (k : string) (l : list string) :
  NoDup l -> NoDup (map (fun sub => k ++ "." ++ sub) l).
Proof.
  induction 1 as [|x l Hx Hl IH]; simpl; constructor; [|assumption].
  rewrite in_map_iff. intros [y [Heq Hy]].
  apply append_inv_head in Heq. simpl in Heq. congruence.
Qed.

Lemma NoDup_block (k : string) (c : value num) :
  noDot k = true ->
  (typeofObject c = true -> NoDup (getDeepKeys c)) ->
  NoDup (block (k, c)).
Proof.
  intros Hk Hc. unfold block, keysOf. simpl.
  destruct (typeofObject c); constructor; try constructor.
  - rewrite in_map_iff. intros [sub [Heq _]].
    symmetry in Heq. exact (noDot_not_append_dot _ _ _ Hk Heq).
  - apply NoDup_map_prefix. auto.
  - simpl. tauto.
Qed.

Lemma NoDup_blocks (es : list (string * value num)) :
  NoDup (map fst es) ->
  (forall k c, In (k, c) es -> noDot k = true /\ NoDup (block (k, c))) ->
  NoDup (flat_map block es).
Proof.
  induction es as [|[k c] rest IH]; intros Hnd Hall; [constructor|].
  change (NoDup (block (k, c) ++ flat_map block rest)%list).
  simpl in Hnd. inversion Hnd as [|? ? Hnotin Hnd']; subst.
  destruct (Hall k c (or_introl eq_refl)) as [Hk Hb].
  apply NoDup_app;
    [assumption
    | apply IH; [assumption | intros; apply Hall; right; assumption] |].
  intros path Hin Hin'. apply in_flat_map in Hin'.
  destruct Hin' as [[k' c'] [He Hp]].
  destruct (Hall k' c' (or_intror He)) as [Hk' _].
  apply (block_head _ _ _ Hk) in Hin. apply (block_head _ _ _ Hk') in Hp.
  apply Hnotin. apply in_map_iff. exists (k', c'). split; [simpl|assumption].
  congruence.
Qed.

(** On a document without dotted keys no key is listed twice. *)
Lemma NoDup_getDeepKeys (obj : value num) :
  wellFormed obj = true -> dotFreeKeys obj = true -> NoDup (getDeepKeys obj).
Proof.
  induction obj as [obj IH] using descent_ind. intros Hwf Hdot.
  rewrite getDeepKeys_entries.
  destruct (wellFormed_entries _ Hwf) as [Hnd Hwfc].
  pose proof (dotFreeKeys_entries _ Hdot) as Hd.
  apply NoDup_blocks; [assumption|].
  intros k c Hin. destruct (Hd _ _ Hin) as [Hk Hdc].
  split; [assumption|]. apply NoDup_block; [assumption|].
  intros Hobj. apply (IH k c); auto. exact (Hwfc _ _ Hin Hobj).
Qed.

Lemma mappingPath_shape (obj : value num) (path : list string) :
  mappingPath obj path -> typeofObject obj = true /\ path <> [].
Proof. destruct 1; split; (reflexivity || discriminate). Qed.

(** Every path through mappings is listed. *)
Lemma mappingPath_listed (obj : value num) (path : list string) :
  mappingPath obj path -> In (join path) (getDeepKeys obj).
Proof.
  induction 1 as [props key child Hin | props key child rest Hin Hrest IH];
    apply in_getDeepKeys; exists key, child; (split; [exact Hin|]);
    apply in_block.
  - left. reflexivity.
  - right. destruct (mappingPath_shape _ _ Hrest) as [Hobj Hne].
    split; [assumption|]. exists (join rest).
    split; [assumption | apply join_cons; assumption].
Qed.

(** *** Parents come first *)

Lemma depth_noDot (k : string) : noDot k = true -> depth k = 1.
Proof.
  intros Hk. unfold depth. rewrite split_noDot by assumption. reflexivity.
Qed.

Lemma depth_prefix (k sub : string) :
  noDot k = true -> depth (k ++ "." ++ sub) = S (depth sub).
Proof.
  intros Hk. unfold depth. rewrite split_append_dot by assumption. reflexivity.
Qed.

Lemma depth_pos (path : string) : 1 <= depth path.
Proof.
  unfold depth. pose proof (split_not_nil path).
  destruct (split path); simpl; [congruence | lia].
Qed.

Lemma parent_prefix_shallow (k sub : string) :
  noDot k = true -> depth sub <= 1 -> parent (k ++ "." ++ sub) = k.
Proof.
  intros Hk Hd. unfold parent, depth in *.
  rewrite split_append_dot by assumption.
  pose proof (split_not_nil sub) as Hne.
  destruct (split sub) as [|seg [|seg' segs]]; simpl in *;
    [congruence | reflexivity | lia].
Qed.

Lemma parent_prefix_deep (k sub : string) :
  noDot k = true -> 1 < depth sub ->
  parent (k ++ "." ++ sub) = k ++ "." ++ parent sub.
Proof.
  intros Hk Hd. unfold parent, depth in *.
  rewrite split_append_dot by assumption.
  destruct (split sub) as [|seg [|seg' segs]]; simpl in Hd; try lia.
  change (removelast (k :: seg :: seg' :: segs))
    with (k :: removelast (seg :: seg' :: segs)).
  apply join_cons. simpl. destruct segs; discriminate.
Qed.

Lemma ancestorsSeen_weaken (seen seen' index : list string) :
  (forall x, In x seen -> In x seen') ->
  ancestorsSeen seen index -> ancestorsSeen seen' index.
Proof.
  revert seen seen'. induction index as [|path rest IH]; simpl; [tauto|].
  intros seen seen' Hsub [Hp Hrest]. split; [auto|].
  apply (IH (path :: seen)); [|assumption].
  simpl. intros x [Hx | Hx]; auto.
Qed.

Lemma ancestorsSeen_app (seen a b : list string) :
  ancestorsSeen seen a -> ancestorsSeen (a ++ seen)%list b ->
  ancestorsSeen seen (a ++ b)%list.
Proof.
  revert seen. induction a as [|x a IH]; simpl; intros seen; [tauto|].
  intros [Hx Ha] Hb. split; [assumption|]. apply IH; [assumption|].
  apply (ancestorsSeen_weaken (x :: a ++ seen)%list); [|assumption].
  intros y. simpl. rewrite !in_app_iff. simpl. tauto.
Qed.

Lemma ancestorsSeen_map (k : string) (seen seen' sub : list string) :
  noDot k = true -> In k seen' ->
  (forall x, In x seen -> In (k ++ "." ++ x) seen') ->
  ancestorsSeen seen sub ->
  ancestorsSeen seen' (map (fun x => k ++ "." ++ x) sub).
Proof.
  intros Hk. revert seen seen'.
  induction sub as [|x rest IH]; simpl; [tauto|].
  intros seen seen' Hin Hseen [Hx Hrest]. split.
  - intros _. destruct (Nat.le_gt_cases (depth x) 1) as [Hd | Hd].
    + change (String "." x) with ("." ++ x).
      rewrite parent_prefix_shallow by assumption. assumption.
    + change (String "." x) with ("." ++ x).
      rewrite parent_prefix_deep by assumption. apply Hseen, Hx, Hd.
  - apply (IH (x :: seen)); simpl; auto.
    intros y [Hy | Hy]; [left; congruence | right; auto].
Qed.

Lemma ancestorsSeen_block (k : string) (c : value num) (seen : list string) :
  noDot k = true ->
  (typeofObject c = true -> ancestorsSeen [] (getDeepKeys c)) ->
  ancestorsSeen seen (block (k, c)).
Proof.
  intros Hk Hc. unfold block, keysOf. simpl. split.
  - rewrite depth_noDot by assumption. lia.
  - destruct (typeofObject c); [|exact I].
    apply (ancestorsSeen_map k [] (k :: seen)); simpl; auto. tauto.
Qed.

Lemma ancestorsSeen_blocks (es : list (string * value num)) :
  (forall k c seen, In (k, c) es -> ancestorsSeen seen (block (k, c))) ->
  forall seen, ancestorsSeen seen (flat_map block es).
Proof.
  induction es as [|[k c] rest IH]; intros Hall seen; [exact I|].
  change (ancestorsSeen seen (block (k, c) ++ flat_map block rest)%list).
  apply ancestorsSeen_app.
  - apply Hall. left. reflexivity.
  - apply IH. intros. apply Hall. right. assumption.
Qed.

Lemma ancestorsSeen_getDeepKeys (obj : value num) :
  dotFreeKeys obj = true -> forall seen, ancestorsSeen seen (getDeepKeys obj).
Proof.
  induction obj as [obj IH] using descent_ind. intros Hdot seen.
  rewrite getDeepKeys_entries.
  pose proof (dotFreeKeys_entries _ Hdot) as Hd.
  apply ancestorsSeen_blocks. intros k c seen' Hin.
  destruct (Hd _ _ Hin) as [Hk Hdc].
  apply ancestorsSeen_block; [assumption|].
  intros Hobj. apply (IH k c); auto.
Qed.

Lemma ancestorsSeen_earlier (seen index : list string) :
  ancestorsSeen seen index ->
  forall i path,
    nth_error index i = Some path -> 1 < depth path ->
    In (parent path) seen
    \/ exists j, j < i /\ nth_error index j = Some (parent path).
Proof.
  revert seen. induction index as [|x rest IH]; intros seen Hseen i path Hi Hd.
  - destruct i; discriminate.
  - destruct Hseen as [Hx Hrest]. destruct i as [|i]; simpl in Hi.
    + injection Hi as ->. left. auto.
    + destruct (IH _ Hrest _ _ Hi Hd) as [[Heq | Hin] | [j [Hj Hn]]].
      * right. exists 0. split; [lia|]. simpl. congruence.
      * left. assumption.
      * right. exists (S j). split; [lia | exact Hn].
Qed.

Lemma ancestorsEarlier_getDeepKeys (obj : value num) :
  dotFreeKeys obj = true -> ancestorsEarlier (getDeepKeys obj).
Proof.
  intros Hdot i path Hi Hd.
  destruct (ancestorsSeen_earlier _ _ (ancestorsSeen_getDeepKeys _ Hdot [])
              _ _ Hi Hd) as [[] | H].
  exact H.
Qed.

(** C5 (amended): on a document none of whose keys contains a dot, no key
    is listed twice, every path that descends through mappings is listed
    exactly once, and every listed key of depth above one comes after its
    parent path. *)
Theorem index_lists_once_parents_first (obj : value num)
        (Hwf : wellFormed obj = true) (Hdot : dotFreeKeys obj = true) :
  NoDup (getDeepKeys obj)
  /\ (forall path,
         mappingPath obj path ->
         count_occ string_dec (getDeepKeys obj) (join path) = 1)
  /\ ancestorsEarlier (getDeepKeys obj).
Proof.
  pose proof (NoDup_getDeepKeys _ Hwf Hdot) as Hnd.
  split; [assumption|]. split.
  - intros path Hpath.
    apply (proj1 (NoDup_count_occ' string_dec _) Hnd).
    apply mappingPath_listed. assumption.
  - apply ancestorsEarlier_getDeepKeys. assumption.
Qed.

End IndexTheorems.

(** ** Resolving indexed paths *)

Section ResolveIndexed.
Context {num : Type} {host : Host num}.

Lemma searchResult_resolve (st : State num) :
  searchResult st = resolve (search st) (parsedYaml st) (keys st).
Proof. reflexivity. Qed.

Lemma deepGetFrom_entry (obj : value num) (k : string) (c : value num)
      (rest : list string) :
  NoDup (map fst (entries obj)) -> In (k, c) (entries obj) ->
  deepGetFrom obj (k :: rest) = deepGetFrom c rest.
Proof.
  intros Hnd Hin. pose proof (getProp_entries _ _ _ Hnd Hin) as Hget.
  destruct obj; simpl in Hin; try tauto; cbn [deepGetFrom];
    rewrite Hget; reflexivity.
Qed.

(** Every listed key leads to a node of the tree. *)
Lemma listed_resolves (obj : value num) :
  wellFormed obj = true -> dotFreeKeys obj = true ->
  forall path, In path (getDeepKeys obj) ->
               exists v, deepGetFrom obj (split path) = Some v.
Proof.
  induction obj as [obj IH] using descent_ind. intros Hwf Hdot path Hin.
  destruct (wellFormed_entries _ Hwf) as [Hnd Hwfc].
  pose proof (dotFreeKeys_entries _ Hdot) as Hd.
  apply in_getDeepKeys in Hin. destruct Hin as [k [c [He Hb]]].
  destruct (Hd _ _ He) as [Hk Hdc].
  apply in_block in Hb. destruct Hb as [-> | [Hobj [sub [Hsub ->]]]].
  - exists c. rewrite split_noDot by assumption.
    rewrite (deepGetFrom_entry _ _ _ _ Hnd He). reflexivity.
  - rewrite split_append_dot by assumption.
    rewrite (deepGetFrom_entry _ _ _ _ Hnd He).
    apply (IH k c); auto. exact (Hwfc _ _ He Hobj).
Qed.

Lemma propertyOf_listed (obj : value num) (path : string) :
  In path (getDeepKeys obj) ->
  propertyOf obj (split path) = deepGetFrom obj (split path).
Proof.
  intros Hin. pose proof (split_not_nil path) as Hne.
  destruct obj; simpl in Hin; try tauto; unfold propertyOf, deepGet;
    destruct (split path); congruence.
Qed.

End ResolveIndexed.

(** ** Leaves of the index *)

Section Leaves.
Context {num : Type}.

Lemma getDeepKeys_cons (key : string) (child : value num)
      (rest : list (string * value num)) :
  getDeepKeys (VObj ((key, child) :: rest))
  = (block (key, child) ++ getDeepKeys (VObj rest))%list.
Proof. reflexivity. Qed.

Lemma array_index_listed (elems : list (value num)) (i : nat) :
  i < List.length elems -> In (indexKey i) (getDeepKeys (VArr elems)).
Proof.
  intros Hi. apply in_getDeepKeys.
  destruct (nth_error elems i) as [c|] eqn:E.
  - exists (indexKey i), c. split.
    + simpl. apply in_indexed. exists i. auto.
    + apply in_block. left. reflexivity.
  - apply nth_error_None in E. lia.
Qed.

(** C6 (amended): a key whose value is a scalar contributes its own path
    and nothing beneath it.  A key whose value is a sequence contributes
    its own path followed by the keys of the sequence, each behind the
    key and a dot; among them is the index of every element. *)
Theorem scalars_are_leaves_sequences_expand (key : string)
        (child : value num) (rest : list (string * value num)) :
  (isScalar child = true ->
   getDeepKeys (VObj ((key, child) :: rest))
   = key :: getDeepKeys (VObj rest))
  /\ (forall elems,
         child = VArr elems ->
         getDeepKeys (VObj ((key, child) :: rest))
         = (key :: map (fun subkey => (key ++ "." ++ subkey)%string)
                     (getDeepKeys (VArr elems))
              ++ getDeepKeys (VObj rest))%list
         /\ forall i, i < List.length elems ->
                      In (key ++ "." ++ indexKey i)
                         (getDeepKeys (VObj ((key, child) :: rest)))).
Proof.
  split.
  - intros Hs. rewrite getDeepKeys_cons.
    destruct child; try discriminate; reflexivity.
  - intros elems ->. split; [reflexivity|].
    intros i Hi. rewrite getDeepKeys_cons. apply in_or_app. left.
    apply in_block. right. split; [reflexivity|].
    exists (indexKey i). split; [|reflexivity].
    apply array_index_listed. assumption.
Qed.

End Leaves.

(** ** The sample document *)

Section SampleDocument.
Context {num : Type} {host : Host num}.

(** C4 (amended): on the default document the query [hello] returns Exact
    with path [hello] and the serialized mapping stored under that key:
    the exact tier finds the mapping, which is truthy.  The prefix filter
    alone would give the six nested paths and the suffix filter the key
    [hello], but neither is consulted. *)
Theorem default_hello_is_exact :
  let st := set_search "hello" (initialState (num:=num)) in
  searchResult st = Some (Exact "hello" (JSON_stringify underHello))
  /\ exactMatch st (split "hello")
     = Some ("hello", JSON_stringify underHello)
  /\ keys st
     = ["hello"; "hello.from"; "hello.from.your";
        "hello.from.your.favourite"; "hello.from.your.favourite.yaml";
        "hello.from.your.favourite.yaml.tool"]
  /\ prefixMatch st "hello" = Some (6, keys st)
  /\ suffixMatch st "hello" = Some (1, ["hello"]).
Proof. cbv zeta. repeat split. Qed.

End SampleDocument.

(** ** Runs on concrete inputs *)

Example default_index :
  getDeepKeys (parsedDefaultYaml (num:=Z))
  = ["hello"; "hello.from"; "hello.from.your"; "hello.from.your.favourite";
     "hello.from.your.favourite.yaml"; "hello.from.your.favourite.yaml.tool"].
Proof. reflexivity. Qed.

Example default_full_path :
  searchResult (set_search "hello.from.your.favourite.yaml.tool"
                  (initialState (num:=Z)))
  = Some (Exact "hello.from.your.favourite.yaml.tool" (dq ++ "👋" ++ dq)).
Proof. reflexivity. Qed.

Example default_tool :
  searchResult (set_search "tool" (initialState (num:=Z)))
  = Some (SuffixMatch 1 ["hello.from.your.favourite.yaml.tool"]).
Proof. reflexivity. Qed.

Example default_zzz :
  searchResult (set_search "zzz" (initialState (num:=Z))) = Some NoMatch.
Proof. reflexivity. Qed.

Example falsy_leaf_falls_through :
  resolve "a.off" (VObj [("a", VObj [("off", VBool false)])])
          (getDeepKeys (VObj [("a", VObj [("off", VBool false : value Z)])]))
  = Some (SuffixMatch 1 ["a.off"]).
Proof. reflexivity. Qed.

Example nested_serialization :
  JSON_stringify (VObj [("n", VArr [VNum 7%Z; VNull]); ("e", VArr [])])
  = "{" ++ nl ++ "  " ++ dq ++ "n" ++ dq ++ ": [" ++ nl
    ++ "    7," ++ nl ++ "    null" ++ nl ++ "  ]," ++ nl
    ++ "  " ++ dq ++ "e" ++ dq ++ ": []" ++ nl ++ "}".
Proof. reflexivity. Qed.

(** C1, as stated, fails on a dotted key and on the empty key: both keys
    are listed and hold a truthy value, yet the first resolves to a
    SuffixMatch and the second to no result at all. *)
Lemma indexed_path_not_exact :
  (wellFormed dottedKeyDoc = true
   /\ In "a.b" (getDeepKeys dottedKeyDoc)
   /\ getProp dottedKeyDoc "a.b" = Some (VStr "x")
   /\ truthy (VStr "x" : value Z) = true
   /\ resolve "a.b" dottedKeyDoc (getDeepKeys dottedKeyDoc)
      = Some (SuffixMatch 1 ["a.b"]))
  /\ (wellFormed emptyKeyDoc = true
      /\ In "" (getDeepKeys emptyKeyDoc)
      /\ getProp emptyKeyDoc "" = Some (VStr "x")
      /\ resolve "" emptyKeyDoc (getDeepKeys emptyKeyDoc) = None).
Proof. repeat split; simpl; auto. Qed.

Lemma tier_priority_witness :
  searchResult (set_keys [] (set_search "hello" (initialState (num:=Z))))
  = Some (Exact "hello" (JSON_stringify underHello)).
Proof.
  apply (proj1 (tier_priority (set_search "hello" (initialState (num:=Z)))
                  ltac:(discriminate))).
  reflexivity.
Defined.

Lemma comparison_diffs_path_witness :
  comparisonHtml
    (set_comparison "help" (set_search "hello" (initialState (num:=Z))))
  = Some (renderChanges (diffChars "hello" "help")).
Proof.
  pose (st := set_comparison "help"
                (set_search "hello" (initialState (num:=Z)))).
  destruct (comparison_diffs_path st "hello" (JSON_stringify underHello)
              eq_refl) as [_ [_ [_ Hdiff]]].
  apply Hdiff. discriminate.
Defined.

(** C3, as stated, fails: with the query
    [hello.from.your.favourite.yaml.tool] and the same text as comparison
    string the block shows the match message, which is not the rendering
    of the serialized value against that string. *)
Lemma comparison_not_value :
  let path := "hello.from.your.favourite.yaml.tool" in
  let st := set_comparison path (set_search path (initialState (num:=Z))) in
  let text := dq ++ "👋" ++ dq in
  searchResult st = Some (Exact path text)
  /\ comparison st = path
  /\ text <> comparison st
  /\ comparisonHtml st = Some matchHtml
  /\ renderComparison st text
     = renderChanges [mkChange text false true; mkChange path true false]
  /\ comparisonHtml st <> Some (renderComparison st text).
Proof. cbv zeta. repeat split; discriminate. Qed.

(** C4, as stated, fails: the result for [hello] is no PrefixMatch. *)
Lemma default_hello_not_prefix :
  ~ exists count found,
      searchResult (set_search "hello" (initialState (num:=Z)))
      = Some (PrefixMatch count found).
Proof. intros [count [found H]]. discriminate H. Qed.

Lemma index_lists_once_parents_first_witness :
  NoDup (getDeepKeys (parsedDefaultYaml (num:=Z)))
  /\ (forall path,
         mappingPath (parsedDefaultYaml (num:=Z)) path ->
         count_occ string_dec (getDeepKeys (parsedDefaultYaml (num:=Z)))
           (join path) = 1)
  /\ ancestorsEarlier (getDeepKeys (parsedDefaultYaml (num:=Z))).
Proof.
  apply (index_lists_once_parents_first (parsedDefaultYaml (num:=Z)));
    reflexivity.
Defined.

(** C5, as stated, fails on a dotted key: the path through the mappings
    [a] and [b] is listed twice, and the first key, of depth two, has no
    key before it. *)
Lemma index_lists_twice :
  wellFormed shadowedDoc = true
  /\ getDeepKeys shadowedDoc = ["a.b"; "a"; "a.b"]
  /\ mappingPath shadowedDoc ["a"; "b"]
  /\ count_occ string_dec (getDeepKeys shadowedDoc) (join ["a"; "b"]) = 2
  /\ ~ NoDup (getDeepKeys shadowedDoc)
  /\ ~ ancestorsEarlier (getDeepKeys shadowedDoc).
Proof.
  split; [reflexivity|]. split; [reflexivity|]. split.
  { apply mappingPath_step with (child := VObj [("b", VStr "y")]).
    - simpl. auto.
    - apply mappingPath_key with (child := VStr "y"). simpl. auto. }
  split; [reflexivity|]. split.
  - intros Hnd. apply (NoDup_count_occ' string_dec) with (x := "a.b") in Hnd.
    + discriminate Hnd.
    + simpl. auto.
  - intros Hanc. destruct (Hanc 0 "a.b" eq_refl) as [j [Hj _]].
    + unfold depth. simpl. lia.
    + lia.
Qed.

(** C6, as stated, fails: the indices of a sequence are listed beneath
    its key. *)
Lemma sequence_is_expanded :
  getDeepKeys listDoc = ["list"; "list.0"; "list.1"]
  /\ getDeepKeys listDoc <> ["list"].
Proof. split; [reflexivity | discriminate]. Qed.

Lemma updateYaml_parse_failure_witness :
  exists st',
    updateYaml (set_yamlInput "a: [" (initialState (num:=Z)))
    = (Normal tt, st')
    /\ parsedYaml st' = parsedDefaultYaml
    /\ keys st' = getDeepKeys (parsedDefaultYaml (num:=Z))
    /\ console st' = [mkLog "Failed to parse YAML:" "YAMLParseError"].
Proof.
  destruct (updateYaml_parse_failure (host:=sampleHost)
              ltac:(discriminate)
              (set_yamlInput "a: [" (initialState (num:=Z)))
              "YAMLParseError" eq_refl)
    as [st' [Hrun [Htree [Hkeys [_ [_ [_ Hlog]]]]]]].
  exists st'. repeat split; assumption.
Defined.

Lemma updateYaml_empty_input_witness :
  updateYaml (set_yamlInput "" (initialState (num:=Z)))
  = (Normal tt, set_yamlInput "" (initialState (num:=Z))).
Proof.
  apply (updateYaml_empty_input (set_yamlInput "" (initialState (num:=Z)))).
  reflexivity.
Defined.

Lemma match_result_shape_witness :
  1 = List.length ["hello.from.your.favourite.yaml.tool"]
  /\ 1 <= 1
  /\ ["hello.from.your.favourite.yaml.tool"]
     = filter (fun key => endsWith key "tool")
         (getDeepKeys (parsedDefaultYaml (num:=Z)))
  /\ forall key,
      In key ["hello.from.your.favourite.yaml.tool"] <->
      In key (getDeepKeys (parsedDefaultYaml (num:=Z)))
      /\ exists p, key = p ++ "tool".
Proof.
  apply (proj1 (match_result_shape
                  (set_search "tool" (initialState (num:=Z))) 1
                  ["hello.from.your.favourite.yaml.tool"])).
  reflexivity.
Defined.

(** * Further properties of the component *)

Section Sessions.
Context {num : Type} {host : Host num}.



(** X2: leaving the textarea a second time without touching the text changes
    neither the tree nor the index, and throws no more than the first
    time. *)
Theorem updateYaml_twice (st : State num) :
  fst (updateYaml (snd (updateYaml st))) = Normal tt
  /\ parsedYaml (snd (updateYaml (snd (updateYaml st))))
     = parsedYaml (snd (updateYaml st))
  /\ keys (snd (updateYaml (snd (updateYaml st))))
     = keys (snd (updateYaml st)).
Proof.
  unfold updateYaml, bind, read, tryCatch, call.
  destruct (String.eqb (yamlInput st) "") eqn:Hnil; simpl.
  - rewrite Hnil. simpl. auto.
  - destruct (YAML_parse (yamlInput st)) as [loaded|e] eqn:Hparse; simpl;
      rewrite Hnil; simpl; rewrite Hparse; simpl; auto.
Qed.

End Sessions.

Section ResolverEdges.
Context {num : Type} {host : Host num}.

Lemma searchResult_suffix_inv (st : State num) (count : nat)
      (found : list string) :
  searchResult st = Some (SuffixMatch count found) ->
  suffixMatch st (search st) = Some (count, found).
Proof.
  unfold searchResult.
  destruct (String.eqb (search st) ""); [discriminate|].
  destruct (exactMatch st (split (search st))) as [[? ?]|]; [discriminate|].
  destruct (suffixMatch st (search st)) as [[? ?]|].
  - intros H; injection H as -> ->. reflexivity.
  - destruct (prefixMatch st (search st)) as [[? ?]|]; discriminate.
Qed.

Lemma searchResult_prefix_inv (st : State num) (count : nat)
      (found : list string) :
  searchResult st = Some (PrefixMatch count found) ->
  suffixMatch st (search st) = None
  /\ prefixMatch st (search st) = Some (count, found).
Proof.
  unfold searchResult.
  destruct (String.eqb (search st) ""); [discriminate|].
  destruct (exactMatch st (split (search st))) as [[? ?]|]; [discriminate|].
  destruct (suffixMatch st (search st)) as [[? ?]|]; [discriminate|].
  destruct (prefixMatch st (search st)) as [[? ?]|]; [|discriminate].
  intros H; injection H as -> ->. split; reflexivity.
Qed.

Lemma suffixMatch_none (st : State num) (q key : string) :
  suffixMatch st q = None -> In key (keys st) -> endsWith key q = false.
Proof.
  unfold suffixMatch. rewrite filter_found. intros Hnone Hin.
  destruct (endsWith key q) eqn:E; [|reflexivity].
  assert (Hf : In key (filter (fun k => endsWith k q) (keys st))).
  { apply filter_In. split; assumption. }
  destruct (filter (fun k => endsWith k q) (keys st));
    [destruct Hf | discriminate].
Qed.

(** X3: the result is [null] for the empty query and for no other, and the
    path of an exact result is the query as typed, whatever the tree. *)
Theorem result_null_iff_no_query (st : State num) :
  (searchResult st = None <-> search st = "")
  /\ (forall path text,
         searchResult st = Some (Exact path text) -> path = search st).
Proof.
  split; [|apply exact_path_is_query].
  unfold searchResult.
  destruct (String.eqb_spec (search st) "") as [Hnil|Hnonnil].
  - split; auto.
  - split; [|contradiction].
    destruct (exactMatch st (split (search st))) as [[? ?]|]; [discriminate|].
    destruct (suffixMatch st (search st)) as [[? ?]|]; [discriminate|].
    destruct (prefixMatch st (search st)) as [[? ?]|]; discriminate.
Qed.

(** X4: a query that is one of the keys of the index is always found: the
    result is Exact with that key, or a SuffixMatch that holds it.  It is
    never a PrefixMatch and never NoMatch, also when the key contains a
    dot. *)
Theorem listed_query_is_found (st : State num)
        (Hquery : search st <> "") (Hlisted : In (search st) (keys st)) :
  (exists text, searchResult st = Some (Exact (search st) text))
  \/ (exists count found,
         searchResult st = Some (SuffixMatch count found)
         /\ In (search st) found).
Proof.
  unfold searchResult.
  destruct (String.eqb_spec (search st) "") as [?|_]; [contradiction|].
  destruct (exactMatch st (split (search st))) as [[path text]|] eqn:Hexact.
  - left. exists text. unfold exactMatch in Hexact.
    destruct (propertyOf (parsedYaml st) (split (search st)));
      [|discriminate].
    destruct (truthy v); [|discriminate].
    injection Hexact as <- _. rewrite join_split. reflexivity.
  - right. unfold suffixMatch. rewrite filter_found.
    assert (Hf : In (search st)
                   (filter (fun k => endsWith k (search st)) (keys st))).
    { apply filter_In. split; [assumption | apply endsWith_refl]. }
    destruct (filter (fun k => endsWith k (search st)) (keys st))
      as [|k ks]; [destruct Hf|].
    exists (List.length (k :: ks)), (k :: ks). split; [reflexivity|exact Hf].
Qed.

(** X5: the keys of a PrefixMatch are proper extensions of the query: each
    is the query followed by at least one more character, and none ends
    with the query. *)
Theorem prefix_matches_extend_query (st : State num) (count : nat)
        (found : list string)
        (Hprefix : searchResult st = Some (PrefixMatch count found)) :
  forall key,
    In key found ->
    In key (keys st)
    /\ endsWith key (search st) = false
    /\ exists t, t <> "" /\ key = search st ++ t.
Proof.
  intros key Hin.
  destruct (searchResult_prefix_inv _ _ _ Hprefix) as [Hsuffix Hp].
  destruct (prefixMatch_some _ _ _ _ Hp) as [_ [_ Hf]].
  rewrite Hf in Hin. apply filter_In in Hin. destruct Hin as [Hkey Hstarts].
  pose proof (suffixMatch_none _ _ _ Hsuffix Hkey) as Hends.
  split; [assumption|]. split; [assumption|].
  apply startsWith_spec in Hstarts. destruct Hstarts as [t Ht].
  exists t. split; [|assumption].
  intros ->. rewrite append_nil_r in Ht. subst key.
  rewrite endsWith_refl in Hends. discriminate.
Qed.

(** X10: when the text parses to the null document, the index is empty
    afterwards and every query ends in NoMatch. *)
Theorem null_document_matches_nothing (st : State num) (query : string)
        (Hinput : yamlInput st <> "")
        (Hparse : YAML_parse (yamlInput st) = Normal VNull)
        (Hquery : query <> "") :
  exists st',
    updateYaml st = (Normal tt, st')
    /\ parsedYaml st' = VNull
    /\ keys st' = []
    /\ searchResult (set_search query st') = Some NoMatch.
Proof.
  eexists. split; [apply updateYaml_parse_success; eassumption|].
  split; [reflexivity|]. split; [reflexivity|].
  unfold searchResult. simpl search.
  destruct (String.eqb_spec query "") as [?|_]; [contradiction|].
  reflexivity.
Qed.

(** X8: on a tree whose keys hold no dot, every row of the card of a suffix
    or prefix result shows a value: the row of a key carries the
    serialization of the node at that key, falsy or not, and the rows
    follow the keys of the result. *)
Theorem match_card_shows_values (st : State num)
        (rows : list (string * option string))
        (Hinv : keys st = getDeepKeys (parsedYaml st))
        (Hwf : wellFormed (parsedYaml st) = true)
        (Hdot : dotFreeKeys (parsedYaml st) = true)
        (Hcard : matchCard st = Some rows) :
  (exists count,
      searchResult st = Some (SuffixMatch count (map fst rows))
      \/ searchResult st = Some (PrefixMatch count (map fst rows)))
  /\ forall key shown,
      In (key, shown) rows ->
      exists v,
        propertyOf (parsedYaml st) (split key) = Some v
        /\ shown = Some (JSON_stringify v).
Proof.
  assert (Hrows : exists count found,
             (searchResult st = Some (SuffixMatch count found)
              \/ searchResult st = Some (PrefixMatch count found))
             /\ rows = map (fun key => (key, keyValue st key)) found
             /\ forall key, In key found -> In key (keys st)).
  { unfold matchCard in Hcard.
    destruct (searchResult st) as [[path text|count found|count found|]|]
      eqn:Hres; try discriminate; injection Hcard as <-;
      exists count, found; (split; [auto|]); (split; [reflexivity|]);
      intros key Hin.
    - apply searchResult_suffix_inv in Hres.
      destruct (suffixMatch_some _ _ _ _ Hres) as [_ [_ Hf]].
      rewrite Hf in Hin. apply filter_In in Hin. tauto.
    - apply searchResult_prefix_inv in Hres. destruct Hres as [_ Hres].
      destruct (prefixMatch_some _ _ _ _ Hres) as [_ [_ Hf]].
      rewrite Hf in Hin. apply filter_In in Hin. tauto. }
  destruct Hrows as [count [found [Hres [-> Hsub]]]].
  rewrite map_map. simpl. rewrite map_id. split; [exists count; exact Hres|].
  intros key shown Hin. apply in_map_iff in Hin.
  destruct Hin as [k [Heq Hk]]. injection Heq as <- <-.
  apply Hsub in Hk. rewrite Hinv in Hk.
  destruct (listed_resolves _ Hwf Hdot _ Hk) as [v Hv].
  rewrite <- (propertyOf_listed _ _ Hk) in Hv.
  exists v. split; [assumption|]. unfold keyValue. rewrite Hv. reflexivity.
Qed.

End ResolverEdges.

Section IndexShape.
Context {num : Type}.

Lemma descentPath_not_nil (obj : value num) (path : list string) :
  descentPath obj path -> path <> [].
Proof. destruct 1; discriminate. Qed.

Lemma descent_listed (obj : value num) (path : list string) :
  descentPath obj path -> In (join path) (getDeepKeys obj).
Proof.
  induction 1 as [obj key child Hin | obj key child rest Hin Hobj Hrest IH];
    apply in_getDeepKeys; exists key, child; (split; [exact Hin|]);
    apply in_block.
  - left. reflexivity.
  - right. split; [assumption|]. exists (join rest).
    split; [assumption|]. apply join_cons.
    exact (descentPath_not_nil _ _ Hrest).
Qed.

Lemma listed_descent (obj : value num) :
  forall key, In key (getDeepKeys obj) ->
              exists path, descentPath obj path /\ key = join path.
Proof.
  induction obj as [obj IH] using descent_ind. intros key Hin.
  apply in_getDeepKeys in Hin. destruct Hin as [k [c [He Hb]]].
  apply in_block in Hb. destruct Hb as [-> | [Hobj [sub [Hsub ->]]]].
  - exists [k]. split; [|reflexivity]. eapply descentPath_key; eassumption.
  - destruct (IH k c He Hobj sub Hsub) as [rest [Hrest ->]].
    exists (k :: rest). split.
    + eapply descentPath_step; eassumption.
    + symmetry. apply join_cons. exact (descentPath_not_nil _ _ Hrest).
Qed.

Lemma propertyOf_entry (obj : value num) (k : string) (c : value num)
      (rest : list string) :
  In (k, c) (entries obj) ->
  propertyOf obj (k :: rest) = deepGetFrom obj (k :: rest).
Proof. destruct obj; simpl; tauto. Qed.

Lemma descent_resolves (obj : value num) (path : list string) :
  descentPath obj path ->
  wellFormed obj = true ->
  exists v, deepGetFrom obj path = Some v /\ propertyOf obj path = Some v.
Proof.
  induction 1 as [obj key child Hin | obj key child rest Hin Hobj Hrest IH];
    intros Hwf; destruct (wellFormed_entries _ Hwf) as [Hnd Hwfc].
  - exists child. rewrite (propertyOf_entry _ _ _ _ Hin).
    rewrite (deepGetFrom_entry _ _ _ [] Hnd Hin). split; reflexivity.
  - destruct (IH (Hwfc _ _ Hin Hobj)) as [v [Hv _]].
    exists v. rewrite (propertyOf_entry _ _ _ _ Hin).
    rewrite (deepGetFrom_entry _ _ _ rest Hnd Hin). split; assumption.
Qed.

(** X6: the index is the list of the dotted forms of the paths
    [getDeepKeys] can walk: a key is listed exactly when it joins the
    segments of a path that goes from entry to entry through
    object-typed values. *)
Theorem index_is_descent_paths (obj : value num) (key : string) :
  In key (getDeepKeys obj) <->
  exists path, descentPath obj path /\ key = join path.
Proof.
  split.
  - apply listed_descent.
  - intros [path [Hpath ->]]. apply descent_listed. assumption.
Qed.

(** X7: no key is listed without a node behind it: every listed key, dotted
    keys included, joins the segments of a path along which the lookup
    of the resolver finds a value. *)
Theorem listed_keys_exist (obj : value num) (key : string)
        (Hwf : wellFormed obj = true)
        (Hlisted : In key (getDeepKeys obj)) :
  exists path v,
    key = join path
    /\ descentPath obj path
    /\ propertyOf obj path = Some v.
Proof.
  destruct (listed_descent _ _ Hlisted) as [path [Hpath ->]].
  destruct (descent_resolves _ _ Hpath Hwf) as [v [_ Hv]].
  exists path, v. auto.
Qed.

End IndexShape.

Section ResolveWalked.
Context {num : Type} {host : Host num}.

(** C1 (amended): every non-empty listed key that is reached through keys
    none of which contains a dot (whatever other keys the document holds)
    leads to the value at the end of that walk.  When that value is
    truthy the resolver returns Exact with the key as path and the
    serialized value.  When it is falsy the exact tier finds nothing and
    the result is what the suffix tier, then the prefix tier, then
    NoMatch give; the suffix tier then succeeds, the key being among its
    matches. *)
Theorem indexed_path_resolves (tree : value num) (path : string)
        (segments : list string)
        (Hwf : wellFormed tree = true)
        (Hwalk : descentPath tree segments)
        (Hdot : forallb noDot segments = true)
        (Hpath : path = join segments)
        (Hquery : path <> "") :
  In path (getDeepKeys tree)
  /\ exists v,
      propertyOf tree segments = Some v
      /\ propertyOf tree (split path) = Some v
      /\ (truthy v = true ->
          resolve path tree (getDeepKeys tree)
          = Some (Exact path (JSON_stringify v)))
      /\ (truthy v = false ->
          let st := mkState tree (getDeepKeys tree) path "" "" [] in
          exactMatch st (split path) = None
          /\ resolve path tree (getDeepKeys tree)
             = match suffixMatch st path with
               | Some (count, found) => Some (SuffixMatch count found)
               | None =>
                   match prefixMatch st path with
                   | Some (count, found) => Some (PrefixMatch count found)
                   | None => Some NoMatch
                   end
               end
          /\ exists count found,
              resolve path tree (getDeepKeys tree)
              = Some (SuffixMatch count found)
              /\ In path found).
Proof.
  pose proof (descent_listed _ _ Hwalk) as Hlisted. rewrite <- Hpath in Hlisted.
  split; [assumption|].
  destruct (descent_resolves _ _ Hwalk Hwf) as [v [_ Hv]].
  assert (Hsplit : split path = segments).
  { rewrite Hpath. apply split_join; [|assumption].
    exact (descentPath_not_nil _ _ Hwalk). }
  exists v. split; [assumption|]. split; [rewrite Hsplit; assumption|].
  unfold resolve, searchResult. simpl search.
  destruct (String.eqb_spec path "") as [?|_]; [contradiction|].
  unfold exactMatch. simpl parsedYaml. rewrite Hsplit, Hv.
  split; intros Ht; rewrite Ht.
  - rewrite <- Hsplit, join_split. reflexivity.
  - cbv zeta. split; [reflexivity|]. split; [reflexivity|].
    unfold suffixMatch. simpl keys. rewrite filter_found.
    assert (Hin : In path (filter (fun key => endsWith key path)
                             (getDeepKeys tree))).
    { apply filter_In. split; [assumption | apply endsWith_refl]. }
    destruct (filter (fun key => endsWith key path) (getDeepKeys tree))
      as [|k ks] eqn:E; [destruct Hin|].
    exists (List.length (k :: ks)), (k :: ks). split; [reflexivity|assumption].
Qed.

End ResolveWalked.

Section RenderedMessage.

Lemma renderChanges_cons (c : Change) (rest : list Change) :
  renderChanges (c :: rest) = renderChange c ++ renderChanges rest.
Proof.
  unfold renderChanges. simpl. destruct (map renderChange rest).
  - symmetry. apply append_nil_r.
  - reflexivity.
Qed.

Lemma renderChange_not_empty (c : Change) : renderChange c <> "".
Proof.
  unfold renderChange. destruct (removed c); [discriminate|].
  destruct (added c); discriminate.
Qed.

Lemma renderChanges_empty (changes : list Change) :
  renderChanges changes = "" -> changes = [].
Proof.
  destruct changes as [|c rest]; [reflexivity|].
  rewrite renderChanges_cons. intros H. exfalso.
  apply (renderChange_not_empty c).
  destruct (renderChange c); [reflexivity | discriminate].
Qed.

(** A closing tag is found where the text before it ends, when that
    text holds no [<]. *)
Lemma closing_tag_unique (t v r : string) :
  lacks "<" t = true ->
  v ++ "</span>" ++ r = t ++ "</span>" ->
  v = t /\ r = "".
Proof.
  revert v. induction t as [|a t IH]; intros v Ht Heq.
  - assert (Hlen : String.length (v ++ "</span>" ++ r) = 7)
      by (rewrite Heq; reflexivity).
    rewrite !append_length in Hlen. simpl in Hlen.
    destruct v; [|simpl in Hlen; lia].
    destruct r; [split; reflexivity | simpl in Hlen; lia].
  - simpl in Ht. apply andb_true_iff in Ht. destruct Ht as [Ha Ht].
    destruct v as [|b v].
    + simpl in Heq. injection Heq as Hhead _. subst a. discriminate Ha.
    + simpl in Heq. injection Heq as -> Heq.
      destruct (IH v Ht Heq) as [-> ->]. split; reflexivity.
Qed.

(** X9: the match message is also the rendering of a list of changes, of
    exactly one: the single added segment that reads as the message's
    own text.  No other list of changes renders to it. *)
Theorem match_message_is_one_rendering (changes : list Change) :
  renderChanges changes = matchHtml <->
  changes = [mkChange "Values match! 🎉" true false].
Proof.
  split; [|intros ->; reflexivity].
  destruct changes as [|[v a r] rest]; [discriminate|].
  rewrite renderChanges_cons. unfold renderChange. simpl.
  destruct r; [discriminate|]. destruct a; [|discriminate].
  intros H.
  apply (append_inv_head
           ("<span class=" ++ dq ++ "text-success" ++ dq ++ ">")) in H.
  rewrite append_assoc in H.
  apply (closing_tag_unique "Values match! 🎉") in H; [|reflexivity].
  destruct H as [-> Hrest].
  apply renderChanges_empty in Hrest. subst rest. reflexivity.
Qed.

End RenderedMessage.

Section BeyondTheIndex.
Context {num : Type} {host : Host num}.

Lemma entries_functional (obj : value num) (k : string) (c c' : value num) :
  NoDup (map fst (entries obj)) ->
  In (k, c) (entries obj) -> In (k, c') (entries obj) -> c = c'.
Proof.
  intros Hnd Hc Hc'.
  pose proof (getProp_entries _ _ _ Hnd Hc) as H.
  rewrite (getProp_entries _ _ _ Hnd Hc') in H. congruence.
Qed.

Lemma chars_nth (s : string) (i : nat) :
  i < String.length s ->
  exists a, nth_error (chars (num:=num) s) i = Some (VStr (String a "")).
Proof.
  revert i; induction s as [|a s IH]; intros i Hi; simpl in Hi; [lia|].
  destruct i as [|i]; simpl.
  - exists a. reflexivity.
  - apply IH. lia.
Qed.

Lemma filter_none {A : Type} (f : A -> bool) (l : list A) :
  (forall x, In x l -> f x = false) -> filter f l = [].
Proof.
  induction l as [|x l IH]; intros Hall; [reflexivity|].
  simpl. rewrite (Hall x (or_introl eq_refl)). apply IH.
  intros y Hy. apply Hall. right. assumption.
Qed.

Lemma filter_all {A : Type} (f : A -> bool) (l : list A) :
  (forall x, In x l -> f x = true) -> filter f l = l.
Proof.
  induction l as [|x l IH]; intros Hall; [reflexivity|].
  simpl. rewrite (Hall x (or_introl eq_refl)). f_equal. apply IH.
  intros y Hy. apply Hall. right. assumption.
Qed.

Lemma startsWith_key_dot_self (k : string) :
  startsWith k (k ++ ".") = false.
Proof.
  destruct (startsWith k (k ++ ".")) eqn:E; [|reflexivity].
  apply startsWith_spec in E. destruct E as [t Ht].
  apply (f_equal String.length) in Ht. rewrite !append_length in Ht.
  simpl in Ht. lia.
Qed.

Lemma startsWith_key_dot_head (k path : string) :
  noDot k = true -> startsWith path (k ++ ".") = true ->
  hd "" (split path) = k.
Proof.
  intros Hk H. apply startsWith_spec in H. destruct H as [t ->].
  rewrite append_assoc. rewrite split_append_dot by assumption. reflexivity.
Qed.

Lemma filter_own_block (k : string) (c : value num) :
  filter (fun key => startsWith key (k ++ ".")) (block (k, c))
  = if typeofObject c
    then map (fun sub => k ++ "." ++ sub) (getDeepKeys c)
    else [].
Proof.
  unfold block, keysOf. simpl. rewrite startsWith_key_dot_self.
  destruct (typeofObject c); [|reflexivity].
  apply filter_all. intros x Hx. apply in_map_iff in Hx.
  destruct Hx as [sub [<- _]]. apply startsWith_spec. exists sub.
  rewrite append_assoc. reflexivity.
Qed.

Lemma filter_other_block (k k' : string) (c' : value num) :
  noDot k = true -> noDot k' = true -> k <> k' ->
  filter (fun key => startsWith key (k ++ ".")) (block (k', c')) = [].
Proof.
  intros Hk Hk' Hne. apply filter_none. intros x Hx.
  destruct (startsWith x (k ++ ".")) eqn:E; [|reflexivity].
  apply (startsWith_key_dot_head _ _ Hk) in E.
  apply (block_head _ _ _ Hk') in Hx. congruence.
Qed.

Lemma filter_blocks (es : list (string * value num)) (k : string)
      (c : value num) :
  NoDup (map fst es) ->
  (forall k' c', In (k', c') es -> noDot k' = true) ->
  In (k, c) es ->
  filter (fun key => startsWith key (k ++ ".")) (flat_map block es)
  = filter (fun key => startsWith key (k ++ ".")) (block (k, c)).
Proof.
  induction es as [|[k0 c0] rest IH]; intros Hnd Hdot Hin; [destruct Hin|].
  change (flat_map block ((k0, c0) :: rest))
    with (block (k0, c0) ++ flat_map block rest)%list.
  rewrite filter_app. simpl in Hnd.
  inversion Hnd as [|? ? Hnotin Hnd']; subst.
  assert (Hk : noDot k = true) by (apply (Hdot k c); assumption).
  destruct Hin as [Heq | Hin].
  - injection Heq as -> ->.
    replace (filter (fun key => startsWith key (k ++ "."))
               (flat_map block rest)) with (@nil string).
    + apply app_nil_r.
    + symmetry. apply filter_none. intros x Hx. apply in_flat_map in Hx.
      destruct Hx as [[k' c'] [He Hb]].
      assert (Hk' : noDot k' = true)
        by (apply (Hdot k' c'); right; assumption).
      assert (Hne : k <> k').
      { intros ->. apply Hnotin. apply in_map_iff. exists (k', c'). auto. }
      pose proof (filter_other_block _ _ c' Hk Hk' Hne) as Hnone.
      destruct (startsWith x (k ++ ".")) eqn:E; [|reflexivity].
      assert (Hf : In x (filter (fun key => startsWith key (k ++ "."))
                           (block (k', c'))))
        by (apply filter_In; split; assumption).
      rewrite Hnone in Hf. destruct Hf.
  - assert (Hne : k <> k0).
    { intros ->. apply Hnotin. apply in_map_iff. exists (k0, c). auto. }
    rewrite (filter_other_block k k0 c0 Hk); auto.
    + simpl. apply IH; auto. intros k' c' H'. apply (Hdot k' c'). right.
      assumption.
    + apply (Hdot k0 c0). left. reflexivity.
Qed.

(** X11: on a tree whose keys hold no dot, the keys that start with a key of
    the root followed by a dot are the keys listed beneath that key, in
    index order: they are what the prefix tier finds for such a query. *)
Theorem prefix_of_key_dot_is_subtree (st : State num) (k : string)
        (c : value num)
        (Hinv : keys st = getDeepKeys (parsedYaml st))
        (Hwf : wellFormed (parsedYaml st) = true)
        (Hdot : dotFreeKeys (parsedYaml st) = true)
        (Hentry : In (k, c) (entries (parsedYaml st)))
        (Hobj : typeofObject c = true) :
  filter (fun key => startsWith key (k ++ ".")) (keys st)
  = map (fun sub => k ++ "." ++ sub) (getDeepKeys c)
  /\ (getDeepKeys c <> [] ->
      prefixMatch st (k ++ ".")
      = Some (List.length (getDeepKeys c),
              map (fun sub => k ++ "." ++ sub) (getDeepKeys c))).
Proof.
  assert (Hfilter :
            filter (fun key => startsWith key (k ++ ".")) (keys st)
            = map (fun sub => k ++ "." ++ sub) (getDeepKeys c)).
  { rewrite Hinv, getDeepKeys_entries.
    destruct (wellFormed_entries _ Hwf) as [Hnd _].
    rewrite (filter_blocks _ k c Hnd); [| |assumption].
    - rewrite filter_own_block, Hobj. reflexivity.
    - intros k' c' H'. apply (dotFreeKeys_entries _ Hdot k' c' H'). }
  split; [assumption|]. intros Hne.
  unfold prefixMatch. rewrite filter_found, Hfilter.
  destruct (getDeepKeys c) as [|sub subs]; [congruence|].
  simpl. rewrite length_map. reflexivity.
Qed.

(** X12: the exact tier reaches further than the index: below a key that
    holds a string, the position of each of its characters resolves
    exactly, to that character, whatever index is supplied; on a tree
    whose keys hold no dot no such key is ever listed. *)
Theorem exact_reaches_into_strings (obj : value num) (k s : string)
        (i : nat) (index : list string)
        (Hwf : wellFormed obj = true)
        (Hentry : In (k, VStr s) (entries obj))
        (Hk : noDot k = true)
        (Hi : i < String.length s) :
  exists a,
    nth_error (chars (num:=num) s) i = Some (VStr (String a ""))
    /\ resolve (k ++ "." ++ indexKey i) obj index
       = Some (Exact (k ++ "." ++ indexKey i)
                 (JSON_stringify (VStr (String a "") : value num)))
    /\ (dotFreeKeys obj = true ->
        ~ In (k ++ "." ++ indexKey i) (getDeepKeys obj)).
Proof.
  destruct (chars_nth s i Hi) as [a Ha]. exists a.
  destruct (wellFormed_entries _ Hwf) as [Hnd _].
  split; [assumption|]. split.
  - remember (k ++ "." ++ indexKey i) as q eqn:Hq.
    assert (Hsplit : split q = [k; indexKey i]).
    { rewrite Hq, split_append_dot by assumption.
      rewrite (split_noDot _ (noDot_indexKey i)). reflexivity. }
    assert (Hnonnil : q <> "") by (rewrite Hq; destruct k; discriminate).
    assert (Hexact : exactMatch (mkState obj index q "" "" []) (split q)
                     = Some (q, JSON_stringify
                                  (VStr (String a "") : value num))).
    { unfold exactMatch. cbn [parsedYaml]. rewrite Hsplit.
      rewrite (propertyOf_entry _ _ _ _ Hentry).
      rewrite (deepGetFrom_entry _ _ _ _ Hnd Hentry).
      cbn [deepGetFrom getProp]. rewrite arrayIndex_indexKey, Ha.
      rewrite <- Hsplit, join_split. reflexivity. }
    unfold resolve, searchResult. cbn [search].
    destruct (String.eqb_spec q "") as [?|_]; [contradiction|].
    rewrite Hexact. reflexivity.
  - intros Hdot Hin. apply in_getDeepKeys in Hin.
    destruct Hin as [k' [c' [He Hb]]].
    destruct (dotFreeKeys_entries _ Hdot _ _ He) as [Hk' _].
    pose proof (block_head _ _ _ Hk' Hb) as Hhead.
    rewrite split_append_dot in Hhead by assumption. simpl in Hhead.
    subst k'. pose proof (entries_functional _ _ _ _ Hnd Hentry He) as Hc.
    subst c'. apply in_block in Hb. destruct Hb as [Heq | [Hobj _]].
    + symmetry in Heq. exact (noDot_not_append_dot _ _ _ Hk Heq).
    + discriminate Hobj.
Qed.

End BeyondTheIndex.

(** ** Further runs on concrete inputs *)

Lemma indexed_path_resolves_witness :
  In "metadata.name" (getDeepKeys labelledDoc)
  /\ exists v,
      propertyOf labelledDoc ["metadata"; "name"] = Some v
      /\ propertyOf labelledDoc (split "metadata.name") = Some v
      /\ (truthy v = true ->
          resolve "metadata.name" labelledDoc (getDeepKeys labelledDoc)
          = Some (Exact "metadata.name" (JSON_stringify v)))
      /\ (truthy v = false ->
          let st := mkState labelledDoc (getDeepKeys labelledDoc)
                      "metadata.name" "" "" [] in
          exactMatch st (split "metadata.name") = None
          /\ resolve "metadata.name" labelledDoc (getDeepKeys labelledDoc)
             = match suffixMatch st "metadata.name" with
               | Some (count, found) => Some (SuffixMatch count found)
               | None =>
                   match prefixMatch st "metadata.name" with
                   | Some (count, found) => Some (PrefixMatch count found)
                   | None => Some NoMatch
                   end
               end
          /\ exists count found,
              resolve "metadata.name" labelledDoc (getDeepKeys labelledDoc)
              = Some (SuffixMatch count found)
              /\ In "metadata.name" found).
Proof.
  apply (indexed_path_resolves labelledDoc "metadata.name"
           ["metadata"; "name"] eq_refl).
  - apply descentPath_step
      with (child := VObj [("labels",
                            VObj [("app.kubernetes.io/name", VStr "web")]);
                           ("name", VStr "web")]).
    + simpl. auto.
    + reflexivity.
    + apply descentPath_key with (child := VStr "web"). simpl. auto.
  - reflexivity.
  - reflexivity.
  - discriminate.
Defined.

Lemma listed_query_is_found_witness :
  (exists text,
      searchResult (mkState dottedKeyDoc ["a.b"] "a.b" "" "" [])
      = Some (Exact "a.b" text))
  \/ (exists count found,
         searchResult (mkState dottedKeyDoc ["a.b"] "a.b" "" "" [])
         = Some (SuffixMatch count found)
         /\ In "a.b" found).
Proof.
  apply (listed_query_is_found (mkState dottedKeyDoc ["a.b"] "a.b" "" "" [])).
  - discriminate.
  - simpl. auto.
Defined.

Lemma prefix_matches_extend_query_witness :
  In "hello.from" (keys (set_search "hel" (initialState (num:=Z))))
  /\ endsWith "hello.from" "hel" = false
  /\ exists t, t <> "" /\ "hello.from" = "hel" ++ t.
Proof.
  apply (prefix_matches_extend_query
           (set_search "hel" (initialState (num:=Z))) 6
           (getDeepKeys (parsedDefaultYaml (num:=Z))) eq_refl "hello.from").
  simpl. auto.
Defined.

Lemma listed_keys_exist_witness :
  exists path v,
    "a.b" = join path
    /\ descentPath shadowedDoc path
    /\ propertyOf shadowedDoc path = Some v.
Proof.
  apply (listed_keys_exist shadowedDoc "a.b" eq_refl). simpl. auto.
Defined.

Lemma match_card_shows_values_witness :
  exists v : value Z,
    propertyOf (VObj [("a", VObj [("off", VBool false)])]) (split "a.off")
    = Some v
    /\ Some "false" = Some (JSON_stringify v).
Proof.
  pose (tree := VObj [("a", VObj [("off", VBool false)])] : value Z).
  destruct (match_card_shows_values
              (mkState tree (getDeepKeys tree) "a.off" "" "" [])
              [("a.off", Some "false")] eq_refl eq_refl eq_refl eq_refl)
    as [_ Hrows].
  apply (Hrows "a.off" (Some "false")). simpl. auto.
Defined.

Lemma null_document_matches_nothing_witness :
  exists st' : State Z,
    updateYaml (host:=nullHost) (set_yamlInput "~" initialState)
    = (Normal tt, st')
    /\ parsedYaml st' = VNull
    /\ keys st' = []
    /\ searchResult (host:=nullHost) (set_search "hello" st') = Some NoMatch.
Proof.
  apply (null_document_matches_nothing (host:=nullHost)
           (set_yamlInput "~" initialState) "hello");
    (discriminate || reflexivity).
Defined.

Lemma prefix_of_key_dot_is_subtree_witness :
  filter (fun key => startsWith key ("hello" ++ "."))
         (keys (initialState (num:=Z)))
  = map (fun sub => "hello" ++ "." ++ sub)
        (getDeepKeys (underHello (num:=Z)))
  /\ (getDeepKeys (underHello (num:=Z)) <> [] ->
      prefixMatch (initialState (num:=Z)) ("hello" ++ ".")
      = Some (List.length (getDeepKeys (underHello (num:=Z))),
              map (fun sub => "hello" ++ "." ++ sub)
                  (getDeepKeys (underHello (num:=Z))))).
Proof.
  apply (prefix_of_key_dot_is_subtree (initialState (num:=Z)) "hello"
           underHello eq_refl eq_refl eq_refl).
  - simpl. auto.
  - reflexivity.
Defined.

Lemma exact_reaches_into_strings_witness :
  exists a,
    nth_error (chars (num:=Z) "ab") 1 = Some (VStr (String a ""))
    /\ resolve ("k" ++ "." ++ indexKey 1) (VObj [("k", VStr "ab")]) []
       = Some (Exact ("k" ++ "." ++ indexKey 1)
                 (JSON_stringify (VStr (String a "") : value Z)))
    /\ (dotFreeKeys (VObj [("k", VStr "ab")] : value Z) = true ->
        ~ In ("k" ++ "." ++ indexKey 1)
             (getDeepKeys (VObj [("k", VStr "ab")] : value Z))).
Proof.
  apply (exact_reaches_into_strings (VObj [("k", VStr "ab")] : value Z)
           "k" "ab" 1 [] eq_refl).
  - simpl. auto.
  - reflexivity.
  - simpl. lia.
Defined.
